(** * The payoff algebra of [payoff.py]

    A shallow embedding of the payoff classes ([Payoff], the simple payoffs,
    [Stack], [Time], [UpAndOut], [Annuity], [AnnuityI]) and of the
    [VariableStrike] mutator, followed by the properties of their four
    operations ([default], [terminal], [transient], [coupon]) and of the
    membership test [t in payoff].

    Conventions.
    - Scalars ([np.double], times, strikes) are exact rationals [Q]; the code
      only compares, adds, subtracts, multiplies and takes maxima and minima.
    - A node array is a one-dimensional [ndarray], a [list Q].
    - A Python call either returns or raises: [result]. *)

From Stdlib Require Import String QArith Qminmax List Bool Arith Lia Lqa.
From Stdlib Require Import Permutation.
Import ListNotations.
Local Open Scope Q_scope.


(** ** Exceptions and results *)

Inductive exn : Type :=
| AssertionError
| NameError
| IndexError
| ValueError
| TypeError.

Inductive result (A : Type) : Type :=
| Ok (a : A)
| Raise (e : exn).

Arguments Ok {A} a.
Arguments Raise {A} e.

Definition bind {A B : Type} (r : result A) (k : A -> result B) : result B :=
  match r with
  | Ok a => k a
  | Raise e => Raise e
  end.

Notation "x <- r ;; k" := (bind r (fun x => k))
  (at level 61, r at next level, right associativity).

(** [assert(c)] *)
Definition py_assert (c : bool) : result unit :=
  if c then Ok tt else Raise AssertionError.

(** ** Scalars *)

Definition Qltb (x y : Q) : bool := negb (Qle_bool y x).
Definition Qneb (x y : Q) : bool := negb (Qeq_bool x y).

(** The builtins [max(x, y)] and [min(x, y)] on two arguments: the first
    argument is returned unless the second is strictly better. *)
Definition py_max (x y : Q) : Q := if Qltb x y then y else x.
Definition py_min (x y : Q) : Q := if Qltb y x then y else x.

(** [t in xs] for a container of numbers: equality of values. *)
Definition mem (t : Q) (xs : list Q) : bool := existsb (Qeq_bool t) xs.

(** ** The part of numpy the payoffs use *)

Module Np.

(** What an operation hands back: a Python scalar or an array. *)
Inductive value : Type :=
| Scalar (x : Q)
| Array (a : list Q).

(** [np.zeros(S.shape)], [np.ones(S.shape)] *)
Definition zeros (S : list Q) : list Q := map (fun _ => 0) S.
Definition ones (S : list Q) : list Q := map (fun _ => 1) S.

Fixpoint zip_with (f : Q -> Q -> Q) (xs ys : list Q) : list Q :=
  match xs, ys with
  | x :: xs', y :: ys' => f x y :: zip_with f xs' ys'
  | _, _ => []
  end.

(** A binary ufunc on two arrays: equal shapes go elementwise, a one-element
    array is broadcast, any other pair of shapes is refused. *)
Definition ufunc_aa (f : Q -> Q -> Q) (xs ys : list Q) : result (list Q) :=
  if Nat.eqb (length xs) (length ys) then Ok (zip_with f xs ys)
  else match xs, ys with
       | [x], _ => Ok (map (f x) ys)
       | _, [y] => Ok (map (fun x => f x y) xs)
       | _, _ => Raise ValueError
       end.

(** The same ufunc on values of either kind. *)
Definition ufunc (f : Q -> Q -> Q) (v w : value) : result value :=
  match v, w with
  | Scalar x, Scalar y => Ok (Scalar (f x y))
  | Scalar x, Array ys => Ok (Array (map (f x) ys))
  | Array xs, Scalar y => Ok (Array (map (fun x => f x y) xs))
  | Array xs, Array ys => r <- ufunc_aa f xs ys ;; Ok (Array r)
  end.

Definition maximum : value -> value -> result value := ufunc Qmax.
Definition maximum_aa : list Q -> list Q -> result (list Q) := ufunc_aa Qmax.

(** [S < L] *)
Definition less (S : list Q) (L : Q) : list bool :=
  map (fun s => Qltb s L) S.

Definition count_true (idx : list bool) : nat :=
  length (filter (fun b => b) idx).

Fixpoint select (idx : list bool) (xs : list Q) : list Q :=
  match idx, xs with
  | b :: idx', x :: xs' => if b then x :: select idx' xs' else select idx' xs'
  | _, _ => []
  end.

(** [X[idx]] for a boolean mask: the mask must have the shape of [X]. *)
Definition getitem (xs : list Q) (idx : list bool) : result (list Q) :=
  if Nat.eqb (length xs) (length idx) then Ok (select idx xs)
  else Raise IndexError.

Fixpoint scatter (idx : list bool) (base vals : list Q) : list Q :=
  match idx, base with
  | b :: idx', x :: base' =>
      if b then
        match vals with
        | v :: vals' => v :: scatter idx' base' vals'
        | [] => x :: scatter idx' base' []
        end
      else x :: scatter idx' base' vals
  | _, _ => base
  end.

Fixpoint fill (idx : list bool) (base : list Q) (v : Q) : list Q :=
  match idx, base with
  | b :: idx', x :: base' => (if b then v else x) :: fill idx' base' v
  | _, _ => base
  end.

(** [X[idx] = w] on a copy of [X]: a scalar or a one-element array is
    broadcast, an array with one entry per selected node is copied in order,
    any other shape is refused. *)
Definition setitem (base : list Q) (idx : list bool) (w : value)
  : result (list Q) :=
  match w with
  | Scalar v => Ok (fill idx base v)
  | Array vals =>
      if Nat.eqb (length vals) (count_true idx) then Ok (scatter idx base vals)
      else match vals with
           | [v] => Ok (fill idx base v)
           | _ => Raise ValueError
           end
  end.

(** Entry [i] of a value, a scalar standing for itself at every node. *)
Definition at_node (v : value) (i : nat) : Q :=
  match v with
  | Scalar x => x
  | Array a => nth i a 0
  end.

(** A value fits [n] nodes when it is a scalar or an array of [n] entries. *)
Definition fits (n : nat) (v : value) : Prop :=
  match v with
  | Scalar _ => True
  | Array a => length a = n
  end.

End Np.

Import Np.

(** ** Module-level names

    [Payoff.__contains__] reads the free name [T]; Python looks it up among
    the names bound at the top level of [payoff.py] (and the builtins). *)

Definition module_names : list string :=
  [ "contextlib"; "np"; "__all__"; "Payoff"; "Forward"; "CallE"; "CallA";
    "PutE"; "PutA"; "PutV"; "CallVR"; "Stack"; "Time"; "UpAndOut";
    "Annuity"; "AnnuityI"; "VariableStrike" ]%string.

(** Reading a global as a number: a name that is not bound raises
    [NameError]; the bound names are modules, a list and classes, none of
    which compares with a number. *)
Definition global_number (name : string) : result Q :=
  if existsb (String.eqb name) module_names then Raise TypeError
  else Raise NameError.

(** ** Payoff objects

    One constructor per class, carrying the attributes the instance holds
    after [__init__]. [Time] holds the parsed schedule: the set of discrete
    instants and the list of intervals. *)

#[local] Unset Elimination Schemes.

Inductive payoff : Type :=
| Payoff (T : Q)
| Forward (T K : Q)
| CallE (T K : Q)
| CallA (T K : Q)
| PutE (T K : Q)
| PutA (T K : Q)
| PutV (T K : Q)
| CallVR (T K : Q)
| Stack (T : Q) (stack : list payoff)
| Time (T : Q) (child : payoff)
       (time_discrete : list Q) (time_continuous : list (Q * Q))
| UpAndOut (T : Q) (child : payoff) (L : Q)
| Annuity (T : Q) (times : list Q) (C N R : Q)
| AnnuityI (T : Q) (times : list Q) (C N R : Q).

#[local] Set Elimination Schemes.

(** [self.T] *)
Definition T_of (p : payoff) : Q :=
  match p with
  | Payoff T | Forward T _ | CallE T _ | CallA T _ | PutE T _ | PutA T _
  | PutV T _ | CallVR T _ | Stack T _ | Time T _ _ _ | UpAndOut T _ _
  | Annuity T _ _ _ _ | AnnuityI T _ _ _ _ => T
  end.

(** *** Constructors *)

(** An entry of the [times] argument of [Time]: a number, or a pair. *)
Inductive time_entry : Type :=
| Instant (x : Q)
| Interval (lower upper : Q).

(** [set.add] *)
Definition set_add (x : Q) (s : list Q) : list Q :=
  if mem x s then s else s ++ [x].

(** One turn of the loop of the [times] setter. Indexing a number raises
    [TypeError], which the [except] clause turns into the scalar case. *)
Definition times_step (T : Q) (st : list Q * list (Q * Q)) (time : time_entry)
  : list Q * list (Q * Q) :=
  let (discrete, continuous) := st in
  match time with
  | Interval t0 t1 =>
      let l := py_max t0 0 in
      let u := py_min t1 T in
      (discrete, continuous ++ [(l, u)])
  | Instant x =>
      if Qle_bool 0 x && Qle_bool x T then (set_add x discrete, continuous)
      else (discrete, continuous)
  end.

(** The [times] setter: both containers are emptied, then filled. *)
Definition times_setter (T : Q) (times : list time_entry)
  : list Q * list (Q * Q) :=
  fold_left (times_step T) times ([], []).

Definition Stack_init (stack : list payoff) : result payoff :=
  match stack with
  | [] => Raise IndexError
  | p :: _ => Ok (Stack (T_of p) stack)
  end.

(** [self.times = times] on a [Time]; the class has no other setter. *)
Definition Time_times_assign (self : payoff) (times : list time_entry)
  : payoff :=
  match self with
  | Time T child _ _ =>
      let (discrete, continuous) := times_setter T times in
      Time T child discrete continuous
  | _ => self
  end.

(** [Time.__init__]: maturity of the child, empty containers, then the
    setter. *)
Definition Time_init (p : payoff) (times : list time_entry) : payoff :=
  Time_times_assign (Time (T_of p) p [] []) times.

(** [self._time_discrete] and [self._time_continuous] *)
Definition time_discrete_of (p : payoff) : list Q :=
  match p with
  | Time _ _ discrete _ => discrete
  | _ => []
  end.

Definition time_continuous_of (p : payoff) : list (Q * Q) :=
  match p with
  | Time _ _ _ continuous => continuous
  | _ => []
  end.

Definition UpAndOut_init (p : payoff) (L : Q) : payoff :=
  UpAndOut (T_of p) p L.

(** *** [__contains__] *)

(** [Payoff.__contains__]: [0 <= t <= T], a chained comparison whose second
    half reads the global [T] and is evaluated only when the first holds. *)
Definition Payoff_contains (t : Q) : result bool :=
  if Qle_bool 0 t then
    T <- global_number "T" ;; Ok (Qle_bool t T)
  else Ok false.

Definition in_intervals (t : Q) (continuous : list (Q * Q)) : bool :=
  existsb (fun lu => Qle_bool (fst lu) t && Qle_bool t (snd lu)) continuous.

(** [Time.__contains__] *)
Definition Time_contains (discrete : list Q) (continuous : list (Q * Q))
  (t : Q) : bool :=
  if mem t discrete then true else in_intervals t continuous.

(** [t in self], by the class of [self]. *)
Definition contains (p : payoff) (t : Q) : result bool :=
  match p with
  | Time _ _ discrete continuous => Ok (Time_contains discrete continuous t)
  | Annuity _ times _ _ _ => Ok (mem t times)
  | _ => Payoff_contains t
  end.

(** *** [terminal] *)

Definition intrinsic_call (K : Q) (S : list Q) : list Q :=
  map (fun s => Qmax (s - K) 0) S.

Definition intrinsic_put (K : Q) (S : list Q) : list Q :=
  map (fun s => Qmax (K - s) 0) S.

Fixpoint terminal (p : payoff) (S : list Q) {struct p} : result value :=
  match p with
  | Forward _ K => Ok (Array (map (fun s => s - K) S))
  | CallE _ K | CallA _ K => Ok (Array (intrinsic_call K S))
  | PutE _ K | PutA _ K => Ok (Array (intrinsic_put K S))
  | Payoff _ | PutV _ _ | CallVR _ _ => Ok (Array (zeros S))
  | Stack _ stack =>
      match stack with
      | [] => Raise IndexError
      | first :: rest =>
          V0 <- terminal first S ;;
          (fix loop (ps : list payoff) (V : value) : result value :=
             match ps with
             | [] => Ok V
             | q :: ps' =>
                 W <- terminal q S ;;
                 V' <- maximum V W ;;
                 loop ps' V'
             end) rest V0
      end
  | Time T child discrete continuous =>
      if Time_contains discrete continuous T then terminal child S
      else Ok (Scalar 0)
  | UpAndOut _ child L =>
      let V := zeros S in
      let idx := less S L in
      Sx <- getitem S idx ;;
      W <- terminal child Sx ;;
      r <- setitem V idx W ;;
      Ok (Array r)
  | Annuity _ _ _ N _ => Ok (Array (map (fun o => o * N) (ones S)))
  | AnnuityI T times C N _ =>
      let V := map (fun o => o * N) (ones S) in
      if mem T times then Ok (Array (map (fun v => v + C) V))
      else Ok (Array V)
  end.

(** *** [default] *)

Fixpoint default (p : payoff) (t : Q) (S : list Q) {struct p}
  : result (list Q) :=
  match p with
  | CallA T K =>
      _ <- py_assert (Qneb t T) ;; Ok (intrinsic_call K S)
  | PutA T K =>
      _ <- py_assert (Qneb t T) ;; Ok (intrinsic_put K S)
  | Payoff T | Forward T _ | CallE T _ | PutE T _ | PutV T _ | CallVR T _ =>
      _ <- py_assert (Qneb t T) ;; Ok (zeros S)
  | Stack T stack =>
      _ <- py_assert (Qneb t T) ;;
      match stack with
      | [] => Raise IndexError
      | first :: rest =>
          V0 <- default first t S ;;
          (fix loop (ps : list payoff) (V : list Q) : result (list Q) :=
             match ps with
             | [] => Ok V
             | q :: ps' =>
                 W <- default q t S ;;
                 V' <- maximum_aa V W ;;
                 loop ps' V'
             end) rest V0
      end
  | Time T child discrete continuous =>
      _ <- py_assert (Qneb t T) ;;
      if Time_contains discrete continuous t then default child t S
      else Ok (zeros S)
  | UpAndOut T child L =>
      _ <- py_assert (Qneb t T) ;;
      let V := zeros S in
      let idx := less S L in
      Sx <- getitem S idx ;;
      W <- default child t Sx ;;
      setitem V idx (Array W)
  | Annuity T _ _ N R | AnnuityI T _ _ N R =>
      _ <- py_assert (Qneb t T) ;;
      Ok (map (fun o => o * N * R) (ones S))
  end.

(** *** [transient] *)

Fixpoint transient (p : payoff) (t : Q) (V S : list Q) {struct p}
  : result (list Q) :=
  match p with
  | CallA T K =>
      _ <- py_assert (Qneb t T) ;;
      maximum_aa V (map (fun s => s - K) S)
  | PutA T K =>
      _ <- py_assert (Qneb t T) ;;
      maximum_aa V (map (fun s => K - s) S)
  | PutV T K =>
      _ <- py_assert (Qneb t T) ;; Ok (map (fun v => Qmax v K) V)
  | CallVR T K =>
      _ <- py_assert (Qneb t T) ;; Ok (map (fun v => Qmin v K) V)
  | Payoff T | Forward T _ | CallE T _ | PutE T _ | Annuity T _ _ _ _ =>
      _ <- py_assert (Qneb t T) ;; Ok V
  | Stack T stack =>
      _ <- py_assert (Qneb t T) ;;
      (fix loop (ps : list payoff) (V : list Q) : result (list Q) :=
         match ps with
         | [] => Ok V
         | q :: ps' => V' <- transient q t V S ;; loop ps' V'
         end) stack V
  | Time T child discrete continuous =>
      _ <- py_assert (Qneb t T) ;;
      if Time_contains discrete continuous t then transient child t V S
      else Ok V
  | UpAndOut _ child L =>
      let Vp := zeros S in
      let idx := less S L in
      Vx <- getitem V idx ;;
      Sx <- getitem S idx ;;
      W <- transient child t Vx Sx ;;
      setitem Vp idx (Array W)
  | AnnuityI T times C _ _ =>
      _ <- py_assert (Qneb t T) ;;
      if mem t times then Ok (map (fun v => v + C) V) else Ok V
  end.

(** *** [coupon] *)

Fixpoint coupon (p : payoff) (t : Q) {struct p} : result Q :=
  match p with
  | Stack _ stack =>
      (fix loop (ps : list payoff) (V : Q) : result Q :=
         match ps with
         | [] => Ok V
         | q :: ps' => c <- coupon q t ;; loop ps' (V + c)
         end) stack 0
  | Time _ child discrete continuous =>
      if Time_contains discrete continuous t then coupon child t else Ok 0
  | UpAndOut _ child _ =>
      b <- Payoff_contains t ;;
      if b then coupon child t else Ok 0
  | Annuity _ times C _ _ =>
      if mem t times then Ok C else Ok 0
  | _ => Ok 0
  end.

(** *** The loops of [Stack], by name *)

Definition Stack_terminal_loop (S : list Q)
  : list payoff -> value -> result value :=
  fix loop (ps : list payoff) (V : value) : result value :=
    match ps with
    | [] => Ok V
    | q :: ps' =>
        W <- terminal q S ;;
        V' <- maximum V W ;;
        loop ps' V'
    end.

Definition Stack_default_loop (t : Q) (S : list Q)
  : list payoff -> list Q -> result (list Q) :=
  fix loop (ps : list payoff) (V : list Q) : result (list Q) :=
    match ps with
    | [] => Ok V
    | q :: ps' =>
        W <- default q t S ;;
        V' <- maximum_aa V W ;;
        loop ps' V'
    end.

Definition Stack_transient_loop (t : Q) (S : list Q)
  : list payoff -> list Q -> result (list Q) :=
  fix loop (ps : list payoff) (V : list Q) : result (list Q) :=
    match ps with
    | [] => Ok V
    | q :: ps' => V' <- transient q t V S ;; loop ps' V'
    end.

(** The [transient] methods that open with [assert(t != self.T)]: all of
    them but [UpAndOut.transient], which goes to its child at once. *)
Definition transient_asserts (p : payoff) : bool :=
  match p with
  | UpAndOut _ _ _ => false
  | _ => true
  end.

(** What the [times] setter keeps true of the two containers. *)
Definition clipped (T : Q) (st : list Q * list (Q * Q)) : Prop :=
  (forall d, In d (fst st) -> 0 <= d /\ d <= T) /\
  (forall l u, In (l, u) (snd st) -> 0 <= l /\ u <= T).

(** ** Objects built by the constructors

    [constructed p]: every [Stack], [Time] and [UpAndOut] inside [p] holds
    what its [__init__] stores, given children that are themselves
    constructed: a [Stack] is non-empty and takes the maturity of its first
    child, a [Time] and an [UpAndOut] take the maturity of their child, and
    the schedule of a [Time] comes out of the [times] setter. *)

Fixpoint constructed (p : payoff) : Prop :=
  match p with
  | Stack T stack =>
      Stack_init stack = Ok p /\
      fold_right (fun q rest => constructed q /\ rest) True stack
  | Time T child discrete continuous =>
      constructed child /\ exists times, Time_init child times = p
  | UpAndOut T child L =>
      constructed child /\ UpAndOut_init child L = p
  | _ => True
  end.

(** The children of a [Stack] share the maturity of the first one,
    everywhere inside [p]. *)
Fixpoint same_maturity (p : payoff) : Prop :=
  match p with
  | Stack T stack =>
      fold_right (fun q rest => (T_of q == T /\ same_maturity q) /\ rest)
                 True stack
  | Time _ child _ _ | UpAndOut _ child _ => same_maturity child
  | _ => True
  end.

(** ** The [VariableStrike] mutator

    [VariableStrike] is mixed into a strike-bearing class and mutates the
    instance, so its [transient] is a computation over the instance's
    attributes: it returns or raises, and leaves a state behind either way. *)

Module Mutator.

(** An attribute value: [None], or a number. *)
Inductive pyval : Type :=
| PNone
| PNum (x : Q).

(** The attributes of a strike-bearing instance. *)
Record instance : Type := { attr_T : Q; attr_K : pyval }.

Definition M (A : Type) : Type := instance -> result A * instance.

Definition ret {A : Type} (a : A) : M A := fun s => (Ok a, s).

Definition mbind {A B : Type} (m : M A) (k : A -> M B) : M B :=
  fun s =>
    match m s with
    | (Ok a, s') => k a s'
    | (Raise e, s') => (Raise e, s')
    end.

(** [try: body finally: handler]: the handler runs on every way out of the
    body; the body's outcome stands unless the handler itself raises. *)
Definition try_finally {A : Type} (body : M A) (handler : M unit) : M A :=
  fun s =>
    let (r, s1) := body s in
    match handler s1 with
    | (Ok _, s2) => (r, s2)
    | (Raise e, s2) => (Raise e, s2)
    end.

(** The instance with its strike replaced. *)
Definition with_K (K : pyval) (self : instance) : instance :=
  {| attr_T := attr_T self; attr_K := K |}.

(** [self.K] and [self.K = v] *)
Definition get_K : M pyval := fun s => (Ok (attr_K s), s).
Definition set_K (v : pyval) : M unit := fun s => (Ok tt, with_K v s).

(** A pure method reading the attributes. *)
Definition lift {A : Type} (f : instance -> result A) : M A :=
  fun s => (f s, s).

Section VariableStrike.

(** The concrete composition supplies [strike] and, next in the method
    resolution order, the [transient] of the strike-bearing class. *)
Variable strike : Q -> M pyval.
Variable super_transient : Q -> list Q -> list Q -> M (list Q).

(** [VariableStrike.transient] *)
Definition VariableStrike_transient (t : Q) (V S : list Q) : M (list Q) :=
  mbind get_K (fun K_origin =>
  try_finally
    (mbind (strike t) (fun K =>
     mbind (set_K K) (fun _ =>
     super_transient t V S)))
    (set_K K_origin)).

End VariableStrike.

(** [with self._strike(K): body]. The generator behind the context manager
    saves the strike and installs [K] on entry; the body runs at its
    [yield], inside the [try]; the [finally] puts the saved strike back
    whether the body returns or raises. *)
Definition strike_scope {A : Type} (K : pyval) (body : M A) : M A :=
  mbind get_K (fun K_origin =>
  try_finally (mbind (set_K K) (fun _ => body)) (set_K K_origin)).

(** [VariableStrike.strike]: a body made of a docstring returns [None]. *)
Definition base_strike (t : Q) : M pyval := ret PNone.

(** [CallA.transient] on the instance. With a number in [self.K],
    [S - self.K] is the elementwise difference. With [None] there, numpy
    subtracts element by element on Python objects: the first element
    raises [TypeError], and an empty [S] has no element to raise on, so the
    difference is the empty array and [np.maximum] goes on with it. *)
Definition CallA_method (t : Q) (V S : list Q) : M (list Q) :=
  lift (fun self =>
    _ <- py_assert (Qneb t (attr_T self)) ;;
    match attr_K self with
    | PNum K => maximum_aa V (map (fun s => s - K) S)
    | PNone =>
        match S with
        | [] => maximum_aa V []
        | _ :: _ => Raise TypeError
        end
    end).

End Mutator.

(** ** More of the classes *)

(** The [times] getter of [Time]: the instants, in the order [list] draws
    them from the set, then the intervals. *)
Definition Time_times (p : payoff) : list time_entry :=
  map Instant (time_discrete_of p)
  ++ map (fun lu => Interval (fst lu) (snd lu)) (time_continuous_of p).

(** No [UpAndOut] anywhere inside. *)
Fixpoint barrier_free (p : payoff) : bool :=
  match p with
  | Stack _ stack => forallb barrier_free stack
  | Time _ child _ _ => barrier_free child
  | UpAndOut _ _ _ => false
  | _ => true
  end.

(** [Stack.coupon]'s loop, by name. *)
Definition Stack_coupon_loop (t : Q) : list payoff -> Q -> result Q :=
  fix loop (ps : list payoff) (V : Q) : result Q :=
    match ps with
    | [] => Ok V
    | q :: ps' => c <- coupon q t ;; loop ps' (V + c)
    end.

(** Node by node. *)
Definition le_nodes : list Q -> list Q -> Prop := Forall2 Qle.

(** No two entries of equal value, as in a Python set. *)
Fixpoint distinct (xs : list Q) : Prop :=
  match xs with
  | [] => True
  | x :: xs' => mem x xs' = false /\ distinct xs'
  end.

(** [t in Time(p, times)] for a payoff of maturity [T]. *)
Definition in_window (T : Q) (times : list time_entry) (t : Q) : bool :=
  Time_contains (fst (times_setter T times)) (snd (times_setter T times)) t.

(** The schedule entries that admit [t], before any clipping. *)
Definition admits (t : Q) (time : time_entry) : Prop :=
  match time with
  | Instant x => t == x
  | Interval a b => a <= t /\ t <= b
  end.

(** ** Instances used by the properties below *)

(** The position, among the selected nodes, of node [i]. *)
Definition rank (idx : list bool) (i : nat) : nat :=
  count_true (firstn i idx).

(** [Time(Payoff(10), [2.0, (5.0, 7.0)])] *)
Definition restricted : payoff :=
  Time_init (Payoff 10) [Instant 2; Interval 5 7].

(** [UpAndOut(CallE(T, 100), 120)] *)
Definition knock_out (T : Q) : payoff := UpAndOut_init (CallE T 100) 120.

(** [Annuity(3, {1, 2, 3}, C=5, N=100)] and its intrinsic twin; [R]
    keeps its default, 0. *)
Definition bond : payoff := Annuity 3 [1; 2; 3] 5 100 0.
Definition bondI : payoff := AnnuityI 3 [1; 2; 3] 5 100 0.

(** ** Induction over payoffs, through the children of a [Stack] *)

Section PayoffInduction.

Variable P : payoff -> Prop.

Hypothesis H_Payoff : forall T, P (Payoff T).
Hypothesis H_Forward : forall T K, P (Forward T K).
Hypothesis H_CallE : forall T K, P (CallE T K).
Hypothesis H_CallA : forall T K, P (CallA T K).
Hypothesis H_PutE : forall T K, P (PutE T K).
Hypothesis H_PutA : forall T K, P (PutA T K).
Hypothesis H_PutV : forall T K, P (PutV T K).
Hypothesis H_CallVR : forall T K, P (CallVR T K).
Hypothesis H_Stack : forall T stack, Forall P stack -> P (Stack T stack).
Hypothesis H_Time : forall T child discrete continuous,
    P child -> P (Time T child discrete continuous).
Hypothesis H_UpAndOut : forall T child L, P child -> P (UpAndOut T child L).
Hypothesis H_Annuity : forall T times C N R, P (Annuity T times C N R).
Hypothesis H_AnnuityI : forall T times C N R, P (AnnuityI T times C N R).

Fixpoint payoff_induction (p : payoff) : P p :=
  match p with
  | Payoff T => H_Payoff T
  | Forward T K => H_Forward T K
  | CallE T K => H_CallE T K
  | CallA T K => H_CallA T K
  | PutE T K => H_PutE T K
  | PutA T K => H_PutA T K
  | PutV T K => H_PutV T K
  | CallVR T K => H_CallVR T K
  | Stack T stack =>
      H_Stack T stack
        ((fix children (ps : list payoff) : Forall P ps :=
            match ps with
            | [] => Forall_nil P
            | q :: ps' => Forall_cons q (payoff_induction q) (children ps')
            end) stack)
  | Time T child discrete continuous =>
      H_Time T child discrete continuous (payoff_induction child)
  | UpAndOut T child L => H_UpAndOut T child L (payoff_induction child)
  | Annuity T times C N R => H_Annuity T times C N R
  | AnnuityI T times C N R => H_AnnuityI T times C N R
  end.

End PayoffInduction.

(** Induction over [p], naming what the three combinators bring. *)
Ltac by_payoff_induction p :=
  induction p as [ | | | | | | | | T stack IH | T child ds cs IH
                   | T child L IH | | ] using payoff_induction.

(** Step over an [assert] in a hypothesis-free goal about a returned
    value: a failed assertion returns nothing. *)
Ltac pass_assert :=
  match goal with
  | |- context [py_assert ?c] =>
      destruct (py_assert c); cbn [bind]; [|discriminate]
  end.

(** ** Scalars *)

Lemma Qltb_lt (x y : Q) : Qltb x y = true <-> x < y.
Proof.
  unfold Qltb. rewrite negb_true_iff.
  split; intro H.
  - apply Qnot_le_lt. intro Hle. apply Qle_bool_iff in Hle. congruence.
  - destruct (Qle_bool y x) eqn:E; [|reflexivity].
    apply Qle_bool_iff in E. exfalso. exact (Qlt_not_le _ _ H E).
Qed.

Lemma Qltb_ge (x y : Q) : Qltb x y = false <-> y <= x.
Proof.
  unfold Qltb. rewrite negb_false_iff. apply Qle_bool_iff.
Qed.

Lemma Qneb_eq (x y : Q) : x == y -> Qneb x y = false.
Proof.
  intro H. unfold Qneb. apply Qeq_bool_iff in H. now rewrite H.
Qed.

Lemma Qneb_neq (x y : Q) : ~ x == y -> Qneb x y = true.
Proof.
  intro H. unfold Qneb. destruct (Qeq_bool x y) eqn:E; [|reflexivity].
  apply Qeq_bool_iff in E. contradiction.
Qed.

Lemma Qmax_either (x y : Q) : Qmax x y = x \/ Qmax x y = y.
Proof.
  unfold Qmax, GenericMinMax.gmax. destruct (x ?= y); auto.
Qed.

Lemma mem_iff (t : Q) (xs : list Q) :
  mem t xs = true <-> exists x, In x xs /\ t == x.
Proof.
  unfold mem. rewrite existsb_exists.
  split; intros [x [Hin H]]; exists x; split; auto; now apply Qeq_bool_iff.
Qed.

(** ** Shapes *)

Lemma length_zeros (S : list Q) : length (zeros S) = length S.
Proof. apply length_map. Qed.

Lemma length_zip_with f (xs ys : list Q) :
  length xs = length ys -> length (zip_with f xs ys) = length xs.
Proof.
  revert ys. induction xs as [|x xs IH]; intros [|y ys] H;
    simpl in *; try congruence.
  f_equal. apply IH. congruence.
Qed.

Lemma nth_zip_with f (xs ys : list Q) (i : nat) :
  length xs = length ys -> (i < length xs)%nat ->
  nth i (zip_with f xs ys) 0 = f (nth i xs 0) (nth i ys 0).
Proof.
  revert ys i. induction xs as [|x xs IH]; intros [|y ys] [|i] H Hi;
    simpl in *; try lia; try reflexivity.
  apply IH; lia.
Qed.

Lemma ufunc_aa_same f (xs ys : list Q) :
  length xs = length ys -> ufunc_aa f xs ys = Ok (zip_with f xs ys).
Proof.
  intro H. unfold ufunc_aa. rewrite H, Nat.eqb_refl. reflexivity.
Qed.

Lemma length_less (S : list Q) (L : Q) : length (less S L) = length S.
Proof. apply length_map. Qed.

Lemma getitem_same (xs : list Q) (idx : list bool) :
  length xs = length idx -> getitem xs idx = Ok (select idx xs).
Proof.
  intro H. unfold getitem. rewrite H, Nat.eqb_refl. reflexivity.
Qed.

Lemma length_select (idx : list bool) (xs : list Q) :
  length xs = length idx -> length (select idx xs) = count_true idx.
Proof.
  unfold count_true.
  revert xs. induction idx as [|b idx IH]; intros [|x xs] H;
    simpl in *; try congruence.
  destruct b; simpl; rewrite IH; congruence.
Qed.

Lemma length_scatter (idx : list bool) (base vals : list Q) :
  length (scatter idx base vals) = length base.
Proof.
  revert base vals. induction idx as [|b idx IH]; intros [|x base] vals;
    simpl; try reflexivity.
  destruct b; [destruct vals|]; simpl; now rewrite IH.
Qed.

Lemma length_fill (idx : list bool) (base : list Q) (v : Q) :
  length (fill idx base v) = length base.
Proof.
  revert base. induction idx as [|b idx IH]; intros [|x base];
    simpl; try reflexivity.
  now rewrite IH.
Qed.

Lemma setitem_length (base : list Q) (idx : list bool) (w : value) r :
  setitem base idx w = Ok r -> length r = length base.
Proof.
  unfold setitem. destruct w as [v|vals].
  - intros [= <-]. apply length_fill.
  - destruct (Nat.eqb (length vals) (count_true idx)).
    + intros [= <-]. apply length_scatter.
    + destruct vals as [|v [|? ?]]; try discriminate.
      intros [= <-]. apply length_fill.
Qed.

(** Node [i] of a masked assignment of one value per selected node. *)
Lemma nth_scatter (idx : list bool) (base vals : list Q) (i : nat) :
  length base = length idx -> length vals = count_true idx ->
  nth i (scatter idx base vals) 0 =
  if nth i idx false then nth (rank idx i) vals 0 else nth i base 0.
Proof.
  unfold rank, count_true.
  revert base vals i. induction idx as [|b idx IH]; intros [|x base] vals i Hb Hv;
    simpl in *; try congruence.
  - destruct i; reflexivity.
  - destruct b; simpl in *.
    + destruct vals as [|v vals]; simpl in *; [lia|].
      destruct i as [|i]; simpl; [reflexivity|].
      apply IH; lia.
    + destruct i as [|i]; simpl; [reflexivity|].
      apply IH; lia.
Qed.

Lemma nth_fill (idx : list bool) (base : list Q) (v : Q) (i : nat) :
  length base = length idx -> (i < length base)%nat ->
  nth i (fill idx base v) 0 = if nth i idx false then v else nth i base 0.
Proof.
  revert base i. induction idx as [|b idx IH]; intros [|x base] i Hb Hi;
    simpl in *; try lia.
  destruct i as [|i]; simpl; [reflexivity|].
  apply IH; lia.
Qed.

Lemma nth_zeros (S : list Q) (i : nat) : nth i (zeros S) 0 = 0.
Proof.
  unfold zeros. revert i. induction S as [|s S IH]; intros [|i]; simpl; auto.
Qed.

Lemma nth_less (S : list Q) (L : Q) (i : nat) :
  (i < length S)%nat -> nth i (less S L) false = Qltb (nth i S 0) L.
Proof.
  unfold less. revert i. induction S as [|s S IH]; intros [|i] H;
    simpl in *; try lia; auto.
  apply IH. lia.
Qed.

Lemma maximum_fits (n : nat) (v w : value) :
  fits n v -> fits n w -> exists r, maximum v w = Ok r /\ fits n r.
Proof.
  destruct v as [x|xs], w as [y|ys]; simpl; intros Hv Hw.
  - eexists; split; [reflexivity|exact I].
  - eexists; split; [reflexivity|]. simpl. now rewrite length_map.
  - eexists; split; [reflexivity|]. simpl. now rewrite length_map.
  - unfold maximum, ufunc. rewrite ufunc_aa_same by congruence.
    eexists; split; [reflexivity|]. simpl.
    rewrite length_zip_with; congruence.
Qed.

(** ** Unfolding the operations of the combinators *)

Lemma terminal_Stack T first rest S :
  terminal (Stack T (first :: rest)) S =
  (V0 <- terminal first S ;; Stack_terminal_loop S rest V0).
Proof. reflexivity. Qed.

Lemma transient_Stack T stack t V S :
  transient (Stack T stack) t V S =
  (_ <- py_assert (Qneb t T) ;; Stack_transient_loop t S stack V).
Proof. reflexivity. Qed.

Lemma default_Stack T first rest t S :
  default (Stack T (first :: rest)) t S =
  (_ <- py_assert (Qneb t T) ;;
   V0 <- default first t S ;; Stack_default_loop t S rest V0).
Proof. reflexivity. Qed.

Lemma terminal_UpAndOut T child L S :
  terminal (UpAndOut T child L) S =
  (W <- terminal child (select (less S L) S) ;;
   r <- setitem (zeros S) (less S L) W ;; Ok (Array r)).
Proof.
  cbn [terminal]. rewrite getitem_same by (symmetry; apply length_less).
  reflexivity.
Qed.

Lemma default_UpAndOut T child L t S :
  default (UpAndOut T child L) t S =
  (_ <- py_assert (Qneb t T) ;;
   W <- default child t (select (less S L) S) ;;
   setitem (zeros S) (less S L) (Array W)).
Proof.
  cbn [default]. rewrite getitem_same by (symmetry; apply length_less).
  reflexivity.
Qed.

Lemma transient_UpAndOut T child L t V S :
  length V = length S ->
  transient (UpAndOut T child L) t V S =
  (W <- transient child t (select (less S L) V) (select (less S L) S) ;;
   setitem (zeros S) (less S L) (Array W)).
Proof.
  intro H. cbn [transient].
  rewrite !getitem_same by (rewrite length_less; congruence).
  reflexivity.
Qed.

Lemma constructed_Stack_inv T stack :
  constructed (Stack T stack) ->
  exists first rest,
    stack = first :: rest /\ T = T_of first /\
    constructed first /\ Forall constructed rest.
Proof.
  cbn [constructed]. intros [Hinit Hall].
  destruct stack as [|first rest]; [discriminate|].
  exists first, rest. cbn in Hinit. injection Hinit as HT.
  cbn [fold_right] in Hall. destruct Hall as [Hfirst Hrest].
  repeat split; auto.
  clear - Hrest. induction rest as [|q rest IH]; constructor.
  - apply Hrest.
  - apply IH, Hrest.
Qed.

Lemma constructed_UpAndOut_inv T child L :
  constructed (UpAndOut T child L) -> T = T_of child /\ constructed child.
Proof.
  cbn [constructed]. intros [Hc Hinit]. split; auto.
  unfold UpAndOut_init in Hinit. congruence.
Qed.

Lemma constructed_Time_inv T child discrete continuous :
  constructed (Time T child discrete continuous) ->
  T = T_of child /\ constructed child /\
  exists times, times_setter T times = (discrete, continuous).
Proof.
  cbn [constructed]. intros [Hc [times Hinit]].
  unfold Time_init, Time_times_assign in Hinit.
  destruct (times_setter (T_of child) times) as [d c] eqn:E.
  injection Hinit as HT Hd Hcs. subst.
  repeat split; auto. now exists times.
Qed.

(** ** Every constructed payoff has a terminal value *)

Lemma Stack_terminal_loop_fits (S : list Q) (ps : list payoff) :
  Forall (fun q => exists v, terminal q S = Ok v /\ fits (length S) v) ps ->
  forall V, fits (length S) V ->
  exists r, Stack_terminal_loop S ps V = Ok r /\ fits (length S) r.
Proof.
  induction 1 as [|q ps [W [HW HfW]] _ IH]; intros V HV; cbn.
  - now exists V.
  - rewrite HW. cbn [bind].
    destruct (maximum_fits _ _ _ HV HfW) as [V' [HV' HfV']].
    rewrite HV'. cbn [bind]. now apply IH.
Qed.

Lemma terminal_fits (p : payoff) :
  constructed p ->
  forall S, exists v, terminal p S = Ok v /\ fits (length S) v.
Proof.
  by_payoff_induction p;
    intros Hc S;
    try (cbn [terminal]; eexists; split; [reflexivity|];
         cbn; unfold intrinsic_call, intrinsic_put, zeros, ones;
         now rewrite ?length_map).
  - apply constructed_Stack_inv in Hc.
    destruct Hc as (first & rest & -> & _ & Hfirst & Hrest).
    rewrite terminal_Stack.
    inversion IH as [|? ? IHfirst IHrest]; subst.
    destruct (IHfirst Hfirst S) as [V0 [HV0 HfV0]].
    rewrite HV0. cbn [bind].
    apply Stack_terminal_loop_fits; auto.
    clear - IHrest Hrest.
    induction rest as [|q rest IHr]; constructor;
      inversion IHrest; inversion Hrest; subst; auto.
  - apply constructed_Time_inv in Hc. destruct Hc as (_ & Hc & _).
    cbn [terminal]. destruct (Time_contains ds cs T).
    + now apply IH.
    + eexists; split; [reflexivity|exact I].
  - apply constructed_UpAndOut_inv in Hc. destruct Hc as [_ Hc].
    rewrite terminal_UpAndOut.
    destruct (IH Hc (select (less S L) S)) as [W [HW HfW]].
    rewrite HW. cbn [bind].
    rewrite length_select in HfW by (symmetry; apply length_less).
    destruct W as [x|a]; cbn [setitem].
    + eexists; split; [reflexivity|]. cbn.
      now rewrite length_fill, length_zeros.
    + cbn in HfW. rewrite HfW, Nat.eqb_refl.
      eexists; split; [reflexivity|]. cbn.
      now rewrite length_scatter, length_zeros.
  - cbn [terminal]. destruct (mem T times); eexists; split;
      try reflexivity; cbn; unfold ones; now rewrite ?length_map.
Qed.

(** ** The maturity boundary *)

Lemma default_at_maturity (p : payoff) (t : Q) (S : list Q) :
  t == T_of p -> default p t S = Raise AssertionError.
Proof.
  intro Ht. destruct p; cbn [default T_of] in *;
    rewrite (Qneb_eq _ _ Ht); reflexivity.
Qed.

Lemma transient_at_maturity (p : payoff) :
  constructed p ->
  forall t V S, t == T_of p ->
    (transient_asserts p = false -> length V = length S) ->
    transient p t V S = Raise AssertionError.
Proof.
  by_payoff_induction p;
    intros Hc t V S Ht HV;
    try (cbn [transient T_of] in *; rewrite (Qneb_eq _ _ Ht); reflexivity).
  apply constructed_UpAndOut_inv in Hc. destruct Hc as [-> Hc].
  specialize (HV eq_refl).
  rewrite transient_UpAndOut by assumption.
  rewrite IH; auto.
  intros _. rewrite !length_select; auto.
  all: rewrite length_less; congruence.
Qed.

(** What does hold at maturity, on every payoff built by the constructors
    and with [t] equal to the maturity [T]: [default(t, S)] raises
    [AssertionError] for every node array [S]; [transient(t, V, S)] never
    returns a value, and what it raises is [AssertionError] for every [V] in
    every class whose [transient] opens with the assertion, and in
    [UpAndOut] (which has none of its own and reaches its child's through
    the masked arrays) for every [V] holding one value per node of [S];
    [terminal(S)] is the operation that returns a value at maturity. *)
Theorem maturity_belongs_to_terminal (p : payoff) (t : Q) (V S : list Q) :
  constructed p ->
  t == T_of p ->
  default p t S = Raise AssertionError /\
  (exists e, transient p t V S = Raise e) /\
  ((transient_asserts p = false -> length V = length S) ->
   transient p t V S = Raise AssertionError) /\
  exists v, terminal p S = Ok v /\ fits (length S) v.
Proof.
  intros Hc Ht. split; [|split; [|split]].
  - now apply default_at_maturity.
  - destruct (Nat.eq_dec (length V) (length S)) as [E|E].
    + exists AssertionError. now apply transient_at_maturity.
    + destruct (transient_asserts p) eqn:Ha.
      * exists AssertionError. apply transient_at_maturity; auto.
        intro H. congruence.
      * destruct p; try discriminate Ha.
        exists IndexError. cbn [transient]. unfold getitem.
        rewrite length_less.
        apply Nat.eqb_neq in E. now rewrite E.
  - now apply transient_at_maturity.
  - now apply terminal_fits.
Qed.

Lemma maturity_belongs_to_terminal_witness :
  default (knock_out 1) 1 [90; 130] = Raise AssertionError /\
  (exists e, transient (knock_out 1) 1 [3; 4] [90; 130] = Raise e) /\
  transient (knock_out 1) 1 [3; 4] [90; 130] = Raise AssertionError /\
  exists v, terminal (knock_out 1) [90; 130] = Ok v /\ fits 2 v.
Proof.
  assert (Hc : constructed (knock_out 1)) by (cbn; repeat split).
  assert (Ht : 1 == T_of (knock_out 1)) by reflexivity.
  destruct (maturity_belongs_to_terminal (knock_out 1) 1 [3; 4] [90; 130]
              Hc Ht) as (Hd & He & Ha & Hv).
  split; [exact Hd|]. split; [exact He|]. split; [|exact Hv].
  apply Ha. reflexivity.
Defined.

(** C1, at the code. [UpAndOut.transient] is the one [default] or
    [transient] that does not open with [assert(t != self.T)]: at every
    time, maturity included, it indexes [V] by the mask of [S] first, and
    only its child asserts. So with [t = T] a value array whose shape is not
    that of [S] raises [IndexError], not [AssertionError]: for the barrier
    120 around [CallE(1, 100)], [t = 1], [V = [3]] and [S = [90, 130]] the
    call raises [IndexError], whereas [UpAndOut.default] at the same time
    and the child's own [transient] on the same arrays raise
    [AssertionError], and so does [UpAndOut.transient] once [V] has the
    shape of [S]. *)
Theorem UpAndOut_transient_lacks_the_assertion
  (child : payoff) (L t : Q) (V S : list Q) :
  transient (UpAndOut_init child L) t V S =
    (if Nat.eqb (length V) (length S)
     then W <- transient child t (select (less S L) V)
                                 (select (less S L) S) ;;
          setitem (zeros S) (less S L) (Array W)
     else Raise IndexError) /\
  default (UpAndOut_init child L) t S =
    (_ <- py_assert (Qneb t (T_of child)) ;;
     W <- default child t (select (less S L) S) ;;
     setitem (zeros S) (less S L) (Array W)) /\
  transient (knock_out 1) 1 [3] [90; 130] = Raise IndexError /\
  default (knock_out 1) 1 [90; 130] = Raise AssertionError /\
  transient (CallE 1 100) 1 [3] [90; 130] = Raise AssertionError /\
  transient (knock_out 1) 1 [3; 4] [90; 130] = Raise AssertionError.
Proof.
  split; [|split; [|repeat split]].
  - destruct (Nat.eqb (length V) (length S)) eqn:E.
    + apply Nat.eqb_eq in E. unfold UpAndOut_init.
      now apply transient_UpAndOut.
    + unfold UpAndOut_init. cbn [transient]. unfold getitem.
      now rewrite length_less, E.
  - unfold UpAndOut_init. apply default_UpAndOut.
Qed.

(** ** American options *)

Lemma Qmax_floor (v x : Q) :
  0 <= v \/ 0 <= x -> Qmax v x == Qmax v (Qmax x 0).
Proof.
  intros [Hv|Hx].
  - destruct (Qlt_le_dec x 0) as [Hx|Hx].
    + rewrite (Q.max_r x 0) by now apply Qlt_le_weak.
      rewrite (Q.max_l v 0) by assumption.
      apply Q.max_l. apply Qle_trans with 0; auto. now apply Qlt_le_weak.
    + now rewrite (Q.max_l x 0) by assumption.
  - now rewrite (Q.max_l x 0) by assumption.
Qed.

(** What early exercise does at one node: the larger of the continuation
    value [v] and the exercise value [x]; the floor at zero of the intrinsic
    value is reached exactly when one of the two is not negative. *)
Lemma exercise_node (v x : Q) :
  v <= Qmax v x /\ x <= Qmax v x /\
  (0 <= v \/ 0 <= x -> Qmax v x == Qmax v (Qmax x 0)) /\
  (Qmax x 0 <= Qmax v x <-> 0 <= v \/ 0 <= x).
Proof.
  split; [apply Q.le_max_l|]. split; [apply Q.le_max_r|].
  split; [apply Qmax_floor|]. split.
  - intro H. destruct (Qlt_le_dec v 0) as [Hv|Hv]; [|now left].
    destruct (Qlt_le_dec x 0) as [Hx|Hx]; [|now right].
    exfalso. apply (Qlt_irrefl 0).
    apply Qle_lt_trans with (Qmax v x).
    + eapply Qle_trans; [apply (Q.le_max_r x 0)|exact H].
    + now apply Q.max_lub_lt.
  - intros H. rewrite (Qmax_floor v x H). apply Q.le_max_r.
Qed.

Lemma nth_map_Q (f : Q -> Q) (xs : list Q) (i : nat) :
  (i < length xs)%nat -> nth i (map f xs) 0 = f (nth i xs 0).
Proof.
  revert i. induction xs as [|x xs IH]; intros [|i] H; simpl in *;
    try lia; auto.
  apply IH. lia.
Qed.

(** C2, as the code has it. For [CallA] and [PutA], every [t] other than
    [T], every node array [S] and every value array [V] over the same nodes:
    [default(t, S)] is the intrinsic value [max(S - K, 0)] (resp.
    [max(K - S, 0)]); [transient(t, V, S)] is [max(V, S - K)] (resp.
    [max(V, K - S)]), the exercise value not being floored at zero; so
    [transient] is at least [V] and at least [S - K] (resp. [K - S]) at
    every node; it is at least [intrinsic(S)] exactly at the nodes where
    [V >= 0] or the exercise value is not negative, and there it equals
    [max(V, intrinsic(S))]. *)
Theorem American_early_exercise (T K t : Q) (V S : list Q) :
  ~ t == T ->
  length V = length S ->
  default (CallA T K) t S = Ok (intrinsic_call K S) /\
  default (PutA T K) t S = Ok (intrinsic_put K S) /\
  exists rc rp,
    transient (CallA T K) t V S = Ok rc /\
    transient (PutA T K) t V S = Ok rp /\
    rc = zip_with Qmax V (map (fun s => s - K) S) /\
    rp = zip_with Qmax V (map (fun s => K - s) S) /\
    length rc = length S /\ length rp = length S /\
    forall i, (i < length S)%nat ->
      let v := nth i V 0 in
      let s := nth i S 0 in
      (v <= nth i rc 0 /\ s - K <= nth i rc 0 /\
       (0 <= v \/ 0 <= s - K ->
        nth i rc 0 == Qmax v (nth i (intrinsic_call K S) 0)) /\
       (nth i (intrinsic_call K S) 0 <= nth i rc 0 <->
        0 <= v \/ 0 <= s - K)) /\
      (v <= nth i rp 0 /\ K - s <= nth i rp 0 /\
       (0 <= v \/ 0 <= K - s ->
        nth i rp 0 == Qmax v (nth i (intrinsic_put K S) 0)) /\
       (nth i (intrinsic_put K S) 0 <= nth i rp 0 <->
        0 <= v \/ 0 <= K - s)).
Proof.
  intros Ht HV.
  cbn [default transient]. rewrite (Qneb_neq _ _ Ht). cbn [py_assert bind].
  split; [reflexivity|]. split; [reflexivity|].
  unfold maximum_aa. rewrite !ufunc_aa_same by (now rewrite length_map).
  do 2 eexists. do 4 (split; [reflexivity|]).
  rewrite !length_zip_with by (now rewrite length_map).
  do 2 (split; [assumption|]).
  intros i Hi. unfold intrinsic_call, intrinsic_put.
  rewrite !nth_zip_with by (rewrite ?length_map; lia).
  rewrite !nth_map_Q by assumption.
  split; apply exercise_node.
Qed.

Lemma American_early_exercise_witness :
  default (CallA 1 100) 0 [90; 130] = Ok (intrinsic_call 100 [90; 130]) /\
  transient (CallA 1 100) 0 [-5; 7] [90; 130] = Ok [-5; 30] /\
  transient (PutA 1 100) 0 [-5; 7] [90; 130] = Ok [10; 7].
Proof.
  assert (Ht : ~ 0 == 1) by (intro H; discriminate H).
  destruct (American_early_exercise 1 100 0 [-5; 7] [90; 130] Ht eq_refl)
    as (Hd & _ & rc & rp & Hc & Hp & -> & -> & _).
  split; [exact Hd|]. split; [exact Hc|exact Hp].
Defined.

(** C2 as stated fails where the continuation value is negative and the
    option is out of the money: [CallA(1, 100).transient(0, [-5], [90])] is
    [[-5]], neither [max(V, intrinsic(S)) = [0]] nor at least
    [intrinsic(S) = [0]]. *)
Lemma American_transient_below_intrinsic :
  exists r,
    transient (CallA 1 100) 0 [-5] [90] = Ok r /\
    r = [-5] /\
    zip_with Qmax [-5] (intrinsic_call 100 [90]) = [0] /\
    r <> zip_with Qmax [-5] (intrinsic_call 100 [90]) /\
    ~ nth 0 (intrinsic_call 100 [90]) 0 <= nth 0 r 0.
Proof.
  exists [-5]. repeat split.
  - discriminate.
  - intro H. vm_compute in H. now apply H.
Qed.

(** ** The membership test of the base class *)

(** C3, at the code. [Payoff.__contains__] compares against the free name
    [T], not [self.T]: for [t < 0] the chained comparison stops at [False];
    for every [t >= 0] the lookup of [T] raises [NameError], whatever the
    maturity is. With [T = 3] and [t = 1], where the test should be [True],
    it raises, and so does the [coupon] of an [UpAndOut], which relies on the
    inherited test. *)
Theorem Payoff_contains_reads_unbound_T (T t : Q) :
  contains (Payoff T) t =
    (if Qle_bool 0 t then Raise NameError else Ok false) /\
  contains (Payoff 3) 1 = Raise NameError /\
  contains (knock_out 3) 1 = Raise NameError /\
  coupon (knock_out 3) 1 = Raise NameError.
Proof.
  split; [reflexivity|]. split; [reflexivity|]. split; reflexivity.
Qed.

(** ** Arrays in, arrays of the same shape out *)

Lemma maximum_aa_length (xs ys r : list Q) :
  length xs = length ys -> maximum_aa xs ys = Ok r -> length r = length xs.
Proof.
  intros H. unfold maximum_aa. rewrite ufunc_aa_same by assumption.
  intros [= <-]. now apply length_zip_with.
Qed.

Lemma Stack_default_loop_length (t : Q) (S : list Q) (ps : list payoff) :
  Forall (fun q => forall a, default q t S = Ok a -> length a = length S) ps ->
  forall V r, length V = length S ->
    Stack_default_loop t S ps V = Ok r -> length r = length S.
Proof.
  induction 1 as [|q ps Hq _ IH]; intros V r HV; cbn.
  - now intros [= <-].
  - destruct (default q t S) as [W|e] eqn:EW; cbn [bind]; [|discriminate].
    destruct (maximum_aa V W) as [V'|e] eqn:EV; cbn [bind]; [|discriminate].
    apply IH. apply maximum_aa_length in EV.
    + congruence.
    + rewrite (Hq W eq_refl). assumption.
Qed.

Lemma default_length (p : payoff) (t : Q) :
  forall S a, default p t S = Ok a -> length a = length S.
Proof.
  by_payoff_induction p;
    intros S a;
    try (cbn [default]; pass_assert; intros [= <-];
         unfold intrinsic_call, intrinsic_put, zeros, ones;
         now rewrite ?length_map).
  - destruct stack as [|first rest].
    + cbn [default]. destruct (py_assert (Qneb t T)); discriminate.
    + rewrite default_Stack.
      pass_assert.
      inversion IH as [|? ? IHfirst IHrest]; subst.
      destruct (default first t S) as [V0|e] eqn:E0; cbn [bind];
        [|discriminate].
      apply Stack_default_loop_length.
      * revert IHrest. apply Forall_impl. intros q Hq. apply Hq.
      * now apply IHfirst.
  - cbn [default]. pass_assert.
    destruct (Time_contains ds cs t).
    + apply IH.
    + intros [= <-]. apply length_zeros.
  - rewrite default_UpAndOut.
    pass_assert.
    destruct (default child t (select (less S L) S)); cbn [bind];
      [|discriminate].
    intro H. apply setitem_length in H. now rewrite length_zeros in H.
Qed.

Lemma Stack_transient_loop_length (t : Q) (S : list Q) (ps : list payoff) :
  Forall (fun q => forall V a, length V = length S ->
                     transient q t V S = Ok a -> length a = length S) ps ->
  forall V r, length V = length S ->
    Stack_transient_loop t S ps V = Ok r -> length r = length S.
Proof.
  induction 1 as [|q ps Hq _ IH]; intros V r HV; cbn.
  - now intros [= <-].
  - destruct (transient q t V S) as [V'|e] eqn:EV; cbn [bind];
      [|discriminate].
    apply IH. now apply (Hq V).
Qed.

Lemma transient_length (p : payoff) (t : Q) :
  forall V S a, length V = length S ->
    transient p t V S = Ok a -> length a = length S.
Proof.
  by_payoff_induction p;
    intros V S a HV;
    try (cbn [transient]; pass_assert;
         solve [ intros [= <-]; now rewrite ?length_map
               | intro H; apply maximum_aa_length in H;
                 [congruence | now rewrite length_map] ]).
  - rewrite transient_Stack.
    pass_assert.
    apply Stack_transient_loop_length; [|assumption].
    revert IH. apply Forall_impl. intros q Hq V' a'. apply Hq.
  - cbn [transient]. pass_assert.
    destruct (Time_contains ds cs t).
    + now apply IH.
    + now intros [= <-].
  - rewrite transient_UpAndOut by assumption.
    destruct (transient child t _ _); cbn [bind]; [|discriminate].
    intro H. apply setitem_length in H. now rewrite length_zeros in H.
  - cbn [transient]. pass_assert.
    destruct (mem t times); intros [= <-]; now rewrite ?length_map.
Qed.

(** ** Away from maturity the operations return *)

Lemma same_maturity_Stack_inv (T : Q) (stack : list payoff) :
  same_maturity (Stack T stack) ->
  Forall (fun q => T_of q == T /\ same_maturity q) stack.
Proof.
  cbn [same_maturity].
  induction stack as [|q stack IH]; cbn [fold_right]; intro H; constructor.
  - apply H.
  - apply IH, H.
Qed.

Lemma not_maturity_child (t T T' : Q) : ~ t == T -> T' == T -> ~ t == T'.
Proof.
  intros Hne E Ht. apply Hne. now rewrite Ht.
Qed.

Lemma Stack_default_loop_returns (t : Q) (S : list Q) (ps : list payoff) :
  Forall (fun q => exists a, default q t S = Ok a) ps ->
  forall V, length V = length S ->
  exists r, Stack_default_loop t S ps V = Ok r.
Proof.
  induction 1 as [|q ps [W HW] _ IH]; intros V HV; cbn.
  - now exists V.
  - rewrite HW. cbn [bind].
    pose proof (default_length _ _ _ _ HW) as HlW.
    unfold maximum_aa. rewrite ufunc_aa_same by congruence. cbn [bind].
    apply IH. rewrite length_zip_with; congruence.
Qed.

Lemma default_returns (p : payoff) :
  constructed p -> same_maturity p ->
  forall t S, ~ t == T_of p -> exists a, default p t S = Ok a.
Proof.
  by_payoff_induction p;
    intros Hc Hm t S Ht;
    try (cbn [default T_of] in *; rewrite (Qneb_neq _ _ Ht);
         cbn [py_assert bind]; eexists; reflexivity).
  - apply same_maturity_Stack_inv in Hm.
    apply constructed_Stack_inv in Hc.
    destruct Hc as (first & rest & -> & _ & Hfirst & Hrest).
    cbn [T_of] in Ht.
    rewrite default_Stack, (Qneb_neq _ _ Ht). cbn [py_assert bind].
    inversion IH as [|? ? IHfirst IHrest]; subst.
    inversion Hm as [|? ? [HTfirst Hmfirst] Hmrest]; subst.
    destruct (IHfirst Hfirst Hmfirst t S) as [V0 HV0].
    { now apply not_maturity_child with T. }
    rewrite HV0. cbn [bind].
    apply Stack_default_loop_returns.
    + clear - IHrest Hrest Hmrest Ht.
      induction rest as [|q rest IHr]; constructor;
        inversion IHrest; inversion Hrest; inversion Hmrest; subst; auto.
      match goal with
      | Hq : _ /\ same_maturity q |- _ => destruct Hq as [HTq Hmq]
      end.
      match goal with
      | IHq : constructed q -> _ |- _ => apply IHq; auto
      end.
      now apply not_maturity_child with T.
    + now apply default_length in HV0.
  - apply constructed_Time_inv in Hc. destruct Hc as (-> & Hc & _).
    cbn [default T_of same_maturity] in *. rewrite (Qneb_neq _ _ Ht).
    cbn [py_assert bind]. destruct (Time_contains ds cs t).
    + now apply IH.
    + eexists; reflexivity.
  - apply constructed_UpAndOut_inv in Hc. destruct Hc as [-> Hc].
    cbn [T_of same_maturity] in *.
    rewrite default_UpAndOut, (Qneb_neq _ _ Ht). cbn [py_assert bind].
    destruct (IH Hc Hm t (select (less S L) S) Ht) as [W HW].
    rewrite HW. cbn [bind setitem].
    apply default_length in HW.
    rewrite length_select in HW by (now rewrite length_less).
    rewrite HW, Nat.eqb_refl. eexists; reflexivity.
Qed.

Lemma Stack_transient_loop_returns (t : Q) (S : list Q) (ps : list payoff) :
  Forall (fun q => forall V, length V = length S ->
                     exists a, transient q t V S = Ok a) ps ->
  forall V, length V = length S ->
  exists r, Stack_transient_loop t S ps V = Ok r.
Proof.
  induction 1 as [|q ps Hq _ IH]; intros V HV; cbn.
  - now exists V.
  - destruct (Hq V HV) as [V' HV']. rewrite HV'. cbn [bind].
    apply IH. now apply transient_length in HV'.
Qed.

Lemma transient_returns (p : payoff) :
  constructed p -> same_maturity p ->
  forall t V S, ~ t == T_of p -> length V = length S ->
    exists a, transient p t V S = Ok a.
Proof.
  by_payoff_induction p;
    intros Hc Hm t V S Ht HV;
    try (cbn [transient T_of] in *; rewrite (Qneb_neq _ _ Ht);
         cbn [py_assert bind];
         solve [ eexists; reflexivity
               | unfold maximum_aa;
                 rewrite ufunc_aa_same by (now rewrite length_map);
                 eexists; reflexivity ]).
  - apply same_maturity_Stack_inv in Hm.
    apply constructed_Stack_inv in Hc.
    destruct Hc as (first & rest & -> & _ & Hfirst & Hrest).
    cbn [T_of] in Ht.
    rewrite transient_Stack, (Qneb_neq _ _ Ht). cbn [py_assert bind].
    apply Stack_transient_loop_returns; [|assumption].
    assert (Hall : Forall constructed (first :: rest)) by now constructor.
    clear - IH Hall Hm Ht.
    induction IH as [|q ps IHq _ IHps]; constructor;
      inversion Hall; inversion Hm; subst; auto.
    match goal with
    | Hq : _ /\ same_maturity q |- _ => destruct Hq as [HTq Hmq]
    end.
    intros V HV. apply IHq; auto. now apply not_maturity_child with T.
  - apply constructed_Time_inv in Hc. destruct Hc as (-> & Hc & _).
    cbn [transient T_of same_maturity] in *. rewrite (Qneb_neq _ _ Ht).
    cbn [py_assert bind]. destruct (Time_contains ds cs t).
    + now apply IH.
    + eexists; reflexivity.
  - apply constructed_UpAndOut_inv in Hc. destruct Hc as [-> Hc].
    cbn [T_of same_maturity] in *.
    rewrite transient_UpAndOut by assumption.
    assert (HVx : length (select (less S L) V)
                  = length (select (less S L) S)).
    { rewrite !length_select; auto; rewrite length_less; congruence. }
    destruct (IH Hc Hm t _ _ Ht HVx) as [W HW].
    rewrite HW. cbn [bind setitem].
    apply transient_length in HW; [|assumption].
    rewrite length_select in HW by (now rewrite length_less).
    rewrite HW, Nat.eqb_refl. eexists; reflexivity.
  - cbn [transient T_of] in *. rewrite (Qneb_neq _ _ Ht).
    cbn [py_assert bind]. destruct (mem t times); eexists; reflexivity.
Qed.

(** ** The knock-out barrier *)

(** A masked assignment into [np.zeros(S.shape)] under the mask [S < L]. *)
Lemma setitem_below_barrier (S : list Q) (L : Q) (W : value) :
  fits (count_true (less S L)) W ->
  exists r,
    setitem (zeros S) (less S L) W = Ok r /\
    length r = length S /\
    forall i, (i < length S)%nat ->
      (L <= nth i S 0 -> nth i r 0 = 0) /\
      (nth i S 0 < L -> nth i r 0 = at_node W (rank (less S L) i)).
Proof.
  intros HW.
  assert (Hlen : length (zeros S) = length (less S L))
    by now rewrite length_zeros, length_less.
  destruct W as [x|a]; cbn [setitem fits at_node] in *.
  - eexists. split; [reflexivity|].
    split; [now rewrite length_fill, length_zeros|].
    intros i Hi.
    rewrite nth_fill; [|exact Hlen|now rewrite length_zeros].
    rewrite nth_less by assumption. rewrite nth_zeros.
    split; intro H.
    + apply Qltb_ge in H. now rewrite H.
    + apply Qltb_lt in H. now rewrite H.
  - rewrite HW, Nat.eqb_refl. eexists. split; [reflexivity|].
    split; [now rewrite length_scatter, length_zeros|].
    intros i Hi.
    rewrite nth_scatter by assumption.
    rewrite nth_less by assumption. rewrite nth_zeros.
    split; intro H.
    + apply Qltb_ge in H. now rewrite H.
    + apply Qltb_lt in H. now rewrite H.
Qed.

(** C4. In [UpAndOut], [terminal], [default] and [transient] evaluate the
    child over the nodes with spot strictly below [L] only, put the child's
    values back on exactly those nodes, in order, and leave zero on every
    node with spot at or above [L]; away from maturity, with the children
    of every [Stack] sharing their maturity, the child does return on those
    nodes. For the spots [[90, 120, 150]], the barrier 120 and the child
    [CallE(T, 100)], [terminal] is [[0, 0, 0]]. *)
Theorem UpAndOut_knocks_out (child : payoff) (L t : Q) (V S : list Q) :
  constructed child ->
  length V = length S ->
  (same_maturity child -> ~ t == T_of child ->
   exists Wd Wt,
     default child t (select (less S L) S) = Ok Wd /\
     transient child t (select (less S L) V) (select (less S L) S) = Ok Wt) /\
  (forall Wd Wt,
     default child t (select (less S L) S) = Ok Wd ->
     transient child t (select (less S L) V) (select (less S L) S) = Ok Wt ->
     exists W r rd rt,
       terminal child (select (less S L) S) = Ok W /\
       terminal (UpAndOut_init child L) S = Ok (Array r) /\
       default (UpAndOut_init child L) t S = Ok rd /\
       transient (UpAndOut_init child L) t V S = Ok rt /\
       length r = length S /\ length rd = length S /\ length rt = length S /\
       forall i, (i < length S)%nat ->
         (L <= nth i S 0 ->
          nth i r 0 = 0 /\ nth i rd 0 = 0 /\ nth i rt 0 = 0) /\
         (nth i S 0 < L ->
          nth i r 0 = at_node W (rank (less S L) i) /\
          nth i rd 0 = nth (rank (less S L) i) Wd 0 /\
          nth i rt 0 = nth (rank (less S L) i) Wt 0)) /\
  forall T, terminal (knock_out T) [90; 120; 150] = Ok (Array [0; 0; 0]).
Proof.
  intros Hc HV.
  assert (HS : length (select (less S L) S) = count_true (less S L))
    by (apply length_select; now rewrite length_less).
  assert (HVx : length (select (less S L) V) = count_true (less S L))
    by (apply length_select; rewrite length_less; congruence).
  split; [|split; [|reflexivity]].
  { intros Hm Hne.
    destruct (default_returns child Hc Hm t (select (less S L) S) Hne)
      as [Wd Hd].
    destruct (transient_returns child Hc Hm t (select (less S L) V)
                (select (less S L) S) Hne) as [Wt Ht]; [congruence|].
    now exists Wd, Wt. }
  intros Wd Wt Hd Ht.
  destruct (terminal_fits child Hc (select (less S L) S)) as [W [HW HfW]].
  rewrite HS in HfW.
  destruct (setitem_below_barrier S L W HfW) as (r & Hr & Hlr & Hnr).
  assert (HfWd : fits (count_true (less S L)) (Array Wd)).
  { cbn. apply default_length in Hd. congruence. }
  destruct (setitem_below_barrier S L _ HfWd) as (rd & Hrd & Hlrd & Hnrd).
  assert (HfWt : fits (count_true (less S L)) (Array Wt)).
  { cbn. apply transient_length in Ht; congruence. }
  destruct (setitem_below_barrier S L _ HfWt) as (rt & Hrt & Hlrt & Hnrt).
  assert (Hne : Qneb t (T_of child) = true).
  { destruct (Qneb t (T_of child)) eqn:E; [reflexivity|].
    rewrite (default_at_maturity child t) in Hd; [discriminate|].
    unfold Qneb in E. apply negb_false_iff in E. now apply Qeq_bool_iff. }
  exists W, r, rd, rt. unfold UpAndOut_init.
  rewrite terminal_UpAndOut, default_UpAndOut, transient_UpAndOut
    by assumption.
  rewrite HW, Hd, Ht, Hne. cbn [bind py_assert]. rewrite Hr, Hrd, Hrt.
  cbn [bind].
  do 4 (split; [reflexivity|]). do 3 (split; [assumption|]).
  intros i Hi.
  destruct (Hnr i Hi) as [A1 B1], (Hnrd i Hi) as [A2 B2],
           (Hnrt i Hi) as [A3 B3].
  split; intro H; auto.
Qed.

Lemma UpAndOut_knocks_out_witness :
  exists W r rd rt,
    terminal (CallA 2 100) (select (less [90; 120; 110] 120) [90; 120; 110])
      = Ok W /\
    terminal (UpAndOut_init (CallA 2 100) 120) [90; 120; 110] = Ok (Array r) /\
    default (UpAndOut_init (CallA 2 100) 120) 1 [90; 120; 110] = Ok rd /\
    transient (UpAndOut_init (CallA 2 100) 120) 1 [1; 50; 3] [90; 120; 110]
      = Ok rt /\
    r = [0; 0; 10] /\ rd = [0; 0; 10] /\ rt = [1; 0; 10].
Proof.
  destruct (UpAndOut_knocks_out (CallA 2 100) 120 1
              [1; 50; 3] [90; 120; 110] I eq_refl)
    as (_ & Hnodes & _).
  destruct (Hnodes [0; 10] [1; 10] eq_refl eq_refl)
    as (W & r & rd & rt & HW & Hr & Hrd & Hrt & _).
  exists W, r, rd, rt.
  split; [exact HW|]. split; [exact Hr|].
  split; [exact Hrd|]. split; [exact Hrt|].
  cbv in Hr, Hrd, Hrt.
  injection Hr as <-. injection Hrd as <-. injection Hrt as <-.
  repeat split.
Defined.

(** ** The strike substitution of [VariableStrike] *)

Import Mutator.

(** C5. Whatever [strike] and the wrapped [transient] do (return, raise,
    even assign the strike themselves), after
    [VariableStrike.transient(t, V, S)] the strike field holds the value it
    had before the call. The wrapped [transient] runs on the instance with
    [K = strike(t)] and its outcome is the outcome of the call; if
    [strike(t)] itself raises, so does the call. With [CallA] underneath: a
    numeric strike [k] prices as [CallA(T, k)] and leaves the instance as it
    was; the base [strike], which returns [None], makes the call raise on
    every non-empty node array ([AssertionError] at maturity, [TypeError]
    otherwise; on an empty node array, away from maturity, there is nothing
    to subtract from and [np.maximum] takes [V] against the empty array),
    and leaves the instance as it was. *)
Theorem VariableStrike_restores_strike
  (strike : Q -> M pyval)
  (super_transient : Q -> list Q -> list Q -> M (list Q))
  (t : Q) (V S : list Q) (self : instance) :
  let out := VariableStrike_transient strike super_transient t V S self in
  attr_K (snd out) = attr_K self /\
  match strike t self with
  | (Ok K, s1) => fst out = fst (super_transient t V S (with_K K s1))
  | (Raise e, _) => fst out = Raise e
  end /\
  (forall k : Q,
     VariableStrike_transient (fun _ => ret (PNum k)) CallA_method t V S self
     = (transient (CallA (attr_T self) k) t V S, self)) /\
  VariableStrike_transient base_strike CallA_method t V S self
  = (if Qneb t (attr_T self)
     then match S with
          | [] => maximum_aa V []
          | _ :: _ => Raise TypeError
          end
     else Raise AssertionError,
     self).
Proof.
  split; [|split; [|split]].
  - unfold VariableStrike_transient, mbind, get_K, try_finally, set_K.
    cbn. destruct (strike t self) as [[K|e] s1]; cbn; [|reflexivity].
    destruct (super_transient t V S _) as [r s2]. reflexivity.
  - unfold VariableStrike_transient, mbind, get_K, try_finally, set_K.
    cbn. destruct (strike t self) as [[K|e] s1]; cbn; [|reflexivity].
    unfold with_K. destruct (super_transient t V S _) as [r s2]. reflexivity.
  - intro k. destruct self as [T K]. reflexivity.
  - destruct self as [T K]. cbn. destruct (Qneb t T); cbn [py_assert bind].
    + destruct S as [|s S]; [|reflexivity].
      destruct (maximum_aa V []); reflexivity.
    + reflexivity.
Qed.

(** ** [Stack.terminal] *)

Lemma maximum_at_node (n : nat) (v w r : value) :
  fits n v -> fits n w -> maximum v w = Ok r ->
  forall i, (i < n)%nat -> at_node r i = Qmax (at_node v i) (at_node w i).
Proof.
  destruct v as [x|xs], w as [y|ys]; cbn; intros Hv Hw.
  - now intros [= <-].
  - intros [= <-] i Hi. cbn. apply nth_map_Q. congruence.
  - intros [= <-] i Hi. cbn.
    apply (nth_map_Q (fun x => Qmax x y)). congruence.
  - rewrite ufunc_aa_same by congruence. cbn. intros [= <-] i Hi. cbn.
    apply nth_zip_with; congruence.
Qed.

Lemma Stack_terminal_loop_max (S : list Q) (ps : list payoff) :
  Forall (fun q => exists v, terminal q S = Ok v /\ fits (length S) v) ps ->
  forall V, fits (length S) V ->
  exists r,
    Stack_terminal_loop S ps V = Ok r /\ fits (length S) r /\
    forall i, (i < length S)%nat ->
      at_node V i <= at_node r i /\
      (forall q v, In q ps -> terminal q S = Ok v ->
                   at_node v i <= at_node r i) /\
      (at_node r i = at_node V i \/
       exists q v, In q ps /\ terminal q S = Ok v /\
                   at_node r i = at_node v i).
Proof.
  induction 1 as [|q ps [W [HW HfW]] _ IH]; intros V HV; cbn.
  - exists V. split; [reflexivity|]. split; [assumption|].
    intros i Hi. split; [apply Qle_refl|]. split; [intros ? ? []|now left].
  - rewrite HW. cbn [bind].
    destruct (maximum_fits _ _ _ HV HfW) as [V' [HV' HfV']].
    rewrite HV'. cbn [bind].
    destruct (IH V' HfV') as (r & Hr & Hfr & Hnodes).
    exists r. split; [assumption|]. split; [assumption|].
    intros i Hi. destruct (Hnodes i Hi) as (Hge & Hub & Hatt).
    rewrite (maximum_at_node _ _ _ _ HV HfW HV' i Hi) in Hge, Hatt.
    split; [|split].
    + eapply Qle_trans; [apply Q.le_max_l|exact Hge].
    + intros q' v [<-|Hin] Hv.
      * assert (v = W) by congruence. subst v.
        eapply Qle_trans; [apply Q.le_max_r|exact Hge].
      * now apply (Hub q').
    + destruct Hatt as [Hatt|(q' & v & Hin & Hv & Hatt)].
      * destruct (Qmax_either (at_node V i) (at_node W i)) as [E|E];
          rewrite E in Hatt.
        -- now left.
        -- right. exists q, W. split; [now left|]. now split.
      * right. exists q', v. split; [now right|]. now split.
Qed.

(** C6. A [Stack] built from a non-empty sequence of constructed payoffs
    takes the maturity of its first child, and its [terminal(S)] returns, at
    every node, the largest of the children's own [terminal(S)] at that
    node: it is at least each child's value and equal to one of them. (The
    children's maturities play no part in [terminal].) *)
Theorem Stack_terminal_is_elementwise_max
  (first : payoff) (rest : list payoff) (S : list Q) :
  constructed first ->
  Forall constructed rest ->
  exists stk r,
    Stack_init (first :: rest) = Ok stk /\
    T_of stk = T_of first /\
    terminal stk S = Ok r /\ fits (length S) r /\
    forall i, (i < length S)%nat ->
      (forall q v, In q (first :: rest) -> terminal q S = Ok v ->
                   at_node v i <= at_node r i) /\
      (exists q v, In q (first :: rest) /\ terminal q S = Ok v /\
                   at_node r i = at_node v i).
Proof.
  intros Hfirst Hrest.
  destruct (terminal_fits first Hfirst S) as [V0 [HV0 HfV0]].
  assert (Hall : Forall (fun q => exists v, terminal q S = Ok v /\
                                            fits (length S) v) rest).
  { revert Hrest. apply Forall_impl. intros q Hq. now apply terminal_fits. }
  destruct (Stack_terminal_loop_max S rest Hall V0 HfV0)
    as (r & Hr & Hfr & Hnodes).
  exists (Stack (T_of first) (first :: rest)), r.
  split; [reflexivity|]. split; [reflexivity|].
  rewrite terminal_Stack, HV0. cbn [bind].
  split; [assumption|]. split; [assumption|].
  intros i Hi. destruct (Hnodes i Hi) as (Hge & Hub & Hatt).
  split.
  - intros q v [<-|Hin] Hv.
    + assert (v = V0) by congruence. now subst v.
    + now apply (Hub q).
  - destruct Hatt as [Hatt|(q & v & Hin & Hv & Hatt)].
    + exists first, V0. split; [now left|]. now split.
    + exists q, v. split; [now right|]. now split.
Qed.

Lemma Stack_terminal_is_elementwise_max_witness :
  exists stk r,
    Stack_init [CallE 1 100; PutE 1 100;
                Time_init (Forward 1 50) [Interval 0 (1 # 2)]] = Ok stk /\
    T_of stk = 1 /\
    terminal stk [90; 130] = Ok r /\ r = Array [10; 30].
Proof.
  destruct (Stack_terminal_is_elementwise_max
              (CallE 1 100)
              [PutE 1 100; Time_init (Forward 1 50) [Interval 0 (1 # 2)]]
              [90; 130])
    as (stk & r & Hinit & HT & Hr & _).
  - exact I.
  - repeat constructor.
    exists [Interval 0 (1 # 2)]. reflexivity.
  - exists stk, r. split; [exact Hinit|]. split; [exact HT|].
    split; [exact Hr|].
    cbv in Hinit. injection Hinit as <-.
    cbv in Hr. injection Hr as <-. reflexivity.
Defined.

(** ** The [Time] combinator *)

Lemma in_intervals_iff (t : Q) (continuous : list (Q * Q)) :
  in_intervals t continuous = true <->
  exists l u, In (l, u) continuous /\ l <= t /\ t <= u.
Proof.
  unfold in_intervals. rewrite existsb_exists. split.
  - intros [[l u] [Hin H]]. cbn in H. apply andb_true_iff in H.
    destruct H as [Hl Hu]. exists l, u.
    split; [assumption|]. split; now apply Qle_bool_iff.
  - intros (l & u & Hin & Hl & Hu). exists (l, u). split; [assumption|].
    cbn. apply andb_true_iff. split; now apply Qle_bool_iff.
Qed.

Lemma Time_contains_iff (discrete : list Q) (continuous : list (Q * Q))
  (t : Q) :
  Time_contains discrete continuous t = true <->
  (exists d, In d discrete /\ t == d) \/
  (exists l u, In (l, u) continuous /\ l <= t /\ t <= u).
Proof.
  unfold Time_contains. destruct (mem t discrete) eqn:E.
  - split; [|reflexivity]. intros _. left. now apply mem_iff.
  - rewrite in_intervals_iff. split; [now right|].
    intros [H|H]; [|assumption].
    apply mem_iff in H. congruence.
Qed.

(** C7. [t in time] is [True] exactly when [t] equals a registered instant
    or lies in a registered interval, bounds included. For the restriction
    [{2.0, (5.0, 7.0)}] and [T = 10] the instant 2 and the interval [(5, 7)]
    are registered; 2, 5, 6.5 and 7 are members, 3 and 7.5 are not. *)
Theorem Time_contains_registered
  (T : Q) (child : payoff) (discrete : list Q) (continuous : list (Q * Q))
  (t : Q) :
  (exists b,
     contains (Time T child discrete continuous) t = Ok b /\
     (b = true <->
      (exists d, In d discrete /\ t == d) \/
      (exists l u, In (l, u) continuous /\ l <= t /\ t <= u))) /\
  T_of restricted = 10 /\
  time_discrete_of restricted = [2] /\
  time_continuous_of restricted = [(5, 7)] /\
  contains restricted 2 = Ok true /\
  contains restricted 5 = Ok true /\
  contains restricted (13 # 2) = Ok true /\
  contains restricted 7 = Ok true /\
  contains restricted 3 = Ok false /\
  contains restricted (15 # 2) = Ok false.
Proof.
  split.
  - exists (Time_contains discrete continuous t).
    split; [reflexivity|apply Time_contains_iff].
  - repeat split.
Qed.

(** C8, at the code. [Time.terminal] hands the nodes to the child when [T]
    is in the restriction; otherwise it returns the bare number [0], not an
    array over the nodes, whereas [Time.default] out of its time window
    returns [np.zeros(S.shape)]. For [Time(CallE(10, 100), [2.0])] and the
    nodes [[90, 120]], [terminal] is the scalar [0] and not [[0, 0]]. *)
Theorem Time_terminal_outside_is_scalar
  (T : Q) (child : payoff) (discrete : list Q) (continuous : list (Q * Q))
  (S : list Q) :
  terminal (Time T child discrete continuous) S =
    (if Time_contains discrete continuous T then terminal child S
     else Ok (Scalar 0)) /\
  terminal (Time_init (CallE 10 100) [Instant 2]) [90; 120] = Ok (Scalar 0) /\
  terminal (Time_init (CallE 10 100) [Instant 2]) [90; 120]
    <> Ok (Array (zeros [90; 120])) /\
  default (Time_init (CallE 10 100) [Instant 2]) 1 [90; 120]
    = Ok (zeros [90; 120]).
Proof.
  split; [reflexivity|]. split; [reflexivity|].
  split; [discriminate|reflexivity].
Qed.

(** ** Annuities *)

(** C9. For the bond with [C = 5], [N = 100], schedule [{1, 2, 3}] and
    [T = 3]: [AnnuityI.terminal(S)] is [Annuity.terminal(S)] plus
    [Annuity.coupon(3)], which is 5; [AnnuityI.transient(1, V, S)] is
    [V + 5]; [Annuity.transient(1, V, S)] is [V], its coupon at 1 showing in
    [coupon(1)] only. *)
Theorem AnnuityI_folds_the_coupon (V S : list Q) :
  exists (b : list Q) (c : Q),
    terminal bond S = Ok (Array b) /\
    coupon bond 3 = Ok c /\ c = 5 /\
    terminal bondI S = Ok (Array (map (fun x => x + c) b)) /\
    transient bondI 1 V S = Ok (map (fun v => v + 5) V) /\
    transient bond 1 V S = Ok V /\
    coupon bond 1 = Ok 5 /\
    coupon bondI 1 = Ok 0.
Proof.
  exists (map (fun o => o * 100) (ones S)), 5.
  repeat split.
Qed.

(** ** The schedule of a [Time] *)

Lemma py_max_floor (x : Q) : 0 <= py_max x 0.
Proof.
  unfold py_max. destruct (Qltb x 0) eqn:E.
  - apply Qle_refl.
  - now apply Qltb_ge.
Qed.

Lemma py_min_cap (x T : Q) : py_min x T <= T.
Proof.
  unfold py_min. destruct (Qltb T x) eqn:E.
  - apply Qle_refl.
  - now apply Qltb_ge.
Qed.

Lemma times_step_clipped (T : Q) (st : list Q * list (Q * Q))
  (time : time_entry) :
  clipped T st -> clipped T (times_step T st time).
Proof.
  destruct st as [ds cs]. intros [Hd Hc].
  destruct time as [x|t0 t1]; cbn [times_step].
  - destruct (Qle_bool 0 x && Qle_bool x T) eqn:E; [|now split].
    apply andb_true_iff in E. destruct E as [E0 ET].
    apply Qle_bool_iff in E0, ET.
    split; [|exact Hc]. cbn [fst]. unfold set_add.
    destruct (mem x ds); [exact Hd|].
    intros d Hin. apply in_app_or in Hin.
    destruct Hin as [Hin|[<-|[]]]; auto.
  - split; [exact Hd|]. cbn [snd]. intros l u Hin.
    apply in_app_or in Hin. destruct Hin as [Hin|[[= <- <-]|[]]].
    + now apply Hc.
    + split; [apply py_max_floor|apply py_min_cap].
Qed.

Lemma times_setter_clipped (T : Q) (times : list time_entry) :
  clipped T (times_setter T times).
Proof.
  unfold times_setter.
  assert (H0 : clipped T ([], [])) by (split; intros; contradiction).
  revert H0. generalize (@nil Q, @nil (Q * Q)).
  induction times as [|time times IH]; intros st Hst; cbn [fold_left].
  - exact Hst.
  - apply IH. now apply times_step_clipped.
Qed.

Lemma clipped_members (T : Q) (discrete : list Q) (continuous : list (Q * Q))
  (t : Q) :
  clipped T (discrete, continuous) ->
  Time_contains discrete continuous t = true -> 0 <= t /\ t <= T.
Proof.
  intros [Hd Hc] H. apply Time_contains_iff in H.
  destruct H as [(d & Hin & E)|(l & u & Hin & Hl & Hu)].
  - destruct (Hd d Hin) as [H0 HT]. rewrite E. now split.
  - destruct (Hc l u Hin) as [H0 HT]. split.
    + now apply Qle_trans with l.
    + now apply Qle_trans with u.
Qed.

(** C10. After any assignment of a schedule to a [Time] of maturity [T],
    whatever the schedule held before: every registered instant lies in
    [[0, T]], a scalar entry outside [[0, T]] is not registered, every
    registered interval [(l, u)] has [0 <= l] and [u <= T], and so every
    [t] with [t in time] lies in [[0, T]]. *)
Theorem times_assignment_stays_in_range
  (T : Q) (child : payoff) (discrete0 : list Q) (continuous0 : list (Q * Q))
  (times : list time_entry) :
  let self' :=
    Time_times_assign (Time T child discrete0 continuous0) times in
  T_of self' = T /\
  (forall d, In d (time_discrete_of self') -> 0 <= d /\ d <= T) /\
  (forall l u, In (l, u) (time_continuous_of self') -> 0 <= l /\ u <= T) /\
  (forall x, In (Instant x) times -> ~ (0 <= x /\ x <= T) ->
             mem x (time_discrete_of self') = false) /\
  (forall t, contains self' t = Ok true -> 0 <= t /\ t <= T).
Proof.
  cbn [Time_times_assign].
  pose proof (times_setter_clipped T times) as Hclip.
  destruct (times_setter T times) as [ds cs].
  cbn [T_of time_discrete_of time_continuous_of contains].
  destruct Hclip as [Hd Hc]. cbn [fst snd] in Hd, Hc.
  split; [reflexivity|]. split; [exact Hd|]. split; [exact Hc|]. split.
  - intros x _ Hout. destruct (mem x ds) eqn:E; [|reflexivity].
    exfalso. apply Hout. apply mem_iff in E. destruct E as (d & Hin & E).
    destruct (Hd d Hin) as [H0 HT]. rewrite E. now split.
  - intros t [= Ht]. apply (clipped_members T ds cs); [now split|exact Ht].
Qed.

(** * Further properties of the payoff classes *)

(** ** European payoffs and the forward *)

Lemma call_put_node (s K : Q) :
  0 <= Qmax (s - K) 0 /\ 0 <= Qmax (K - s) 0 /\
  (Qmax (s - K) 0 == 0 <-> s <= K) /\
  (Qmax (K - s) 0 == 0 <-> K <= s) /\
  Qmax (s - K) 0 - Qmax (K - s) 0 == s - K.
Proof.
  destruct (Q.max_spec (s - K) 0) as [[Hc Ec]|[Hc Ec]];
    destruct (Q.max_spec (K - s) 0) as [[Hp Ep]|[Hp Ep]];
    rewrite Ec, Ep; repeat split; intros; lra.
Qed.

(** X1. At maturity a European call and a European put are never negative;
    the call is worth zero exactly on the nodes with [S <= K] and the put
    exactly on those with [S >= K]; and call minus put is the forward,
    [S - K], at every node (put-call parity), the forward itself not being
    floored. *)
Theorem European_parity_at_maturity (T K : Q) (S : list Q) :
  exists c p f,
    terminal (CallE T K) S = Ok (Array c) /\
    terminal (PutE T K) S = Ok (Array p) /\
    terminal (Forward T K) S = Ok (Array f) /\
    length c = length S /\ length p = length S /\ length f = length S /\
    forall i, (i < length S)%nat ->
      0 <= nth i c 0 /\ 0 <= nth i p 0 /\
      (nth i c 0 == 0 <-> nth i S 0 <= K) /\
      (nth i p 0 == 0 <-> K <= nth i S 0) /\
      nth i f 0 = nth i S 0 - K /\
      nth i c 0 - nth i p 0 == nth i f 0.
Proof.
  do 3 eexists. do 3 (split; [reflexivity|]).
  unfold intrinsic_call, intrinsic_put. rewrite !length_map.
  do 3 (split; [reflexivity|]).
  intros i Hi. rewrite !nth_map_Q by assumption.
  destruct (call_put_node (nth i S 0) K) as (H1 & H2 & H3 & H4 & H5).
  repeat split; try assumption; try apply H3; try apply H4.
Qed.

(** ** Floors and caps on the portfolio value *)

Lemma floor_cap_node (v K1 K2 : Q) :
  (K1 <= K2 ->
   K1 <= Qmin (Qmax v K1) K2 /\ Qmin (Qmax v K1) K2 <= K2 /\
   Qmax (Qmin v K2) K1 == Qmin (Qmax v K1) K2 /\
   (K1 <= v /\ v <= K2 -> Qmin (Qmax v K1) K2 == v)) /\
  (K2 < K1 ->
   Qmin (Qmax v K1) K2 == K2 /\ Qmax (Qmin v K2) K1 == K1).
Proof.
  destruct (Q.max_spec v K1) as [[H1 E1]|[H1 E1]];
    destruct (Q.min_spec v K2) as [[H2 E2]|[H2 E2]];
    destruct (Q.min_spec (Qmax v K1) K2) as [[H3 E3]|[H3 E3]];
    destruct (Q.max_spec (Qmin v K2) K1) as [[H4 E4]|[H4 E4]];
    rewrite ?E3, ?E4, ?E1, ?E2 in *;
    split; intros; repeat split; intros; try lra.
Qed.

Lemma nth_map_map_Q (f g : Q -> Q) (xs : list Q) (i : nat) :
  (i < length xs)%nat -> nth i (map g (map f xs)) 0 = g (f (nth i xs 0)).
Proof.
  intro H. rewrite map_map. now apply (nth_map_Q (fun x => g (f x))).
Qed.

(** X2. [PutV] and [CallVR] act on the value alone, whatever the node array
    is: away from maturity a stack of a floor [K1] and a cap [K2] returns
    an array of the shape of [V]. With [K1 <= K2] it clamps every value into
    [[K1, K2]], leaves the values already there unchanged, and the order of
    the two does not matter; with [K2 < K1] the order decides: the payoff
    listed last wins at every node. *)
Theorem floor_and_cap_stack (T K1 K2 t : Q) (V S : list Q) :
  ~ t == T ->
  exists fc cf,
    transient (Stack T [PutV T K1; CallVR T K2]) t V S = Ok fc /\
    transient (Stack T [CallVR T K2; PutV T K1]) t V S = Ok cf /\
    length fc = length V /\ length cf = length V /\
    forall i, (i < length V)%nat ->
      (K1 <= K2 ->
       K1 <= nth i fc 0 /\ nth i fc 0 <= K2 /\
       nth i cf 0 == nth i fc 0 /\
       (K1 <= nth i V 0 /\ nth i V 0 <= K2 -> nth i fc 0 == nth i V 0)) /\
      (K2 < K1 -> nth i fc 0 == K2 /\ nth i cf 0 == K1).
Proof.
  intro Ht. cbn [transient]. rewrite (Qneb_neq _ _ Ht). cbn [py_assert bind].
  do 2 eexists. do 2 (split; [reflexivity|]).
  rewrite !length_map. do 2 (split; [reflexivity|]).
  intros i Hi.
  rewrite (nth_map_map_Q (fun v => Qmax v K1) (fun v => Qmin v K2))
    by assumption.
  rewrite (nth_map_map_Q (fun v => Qmin v K2) (fun v => Qmax v K1))
    by assumption.
  apply floor_cap_node.
Qed.

Lemma floor_and_cap_stack_witness :
  transient (Stack 1 [PutV 1 2; CallVR 1 5]) 0 [1; 3; 9] [] = Ok [2; 3; 5] /\
  transient (Stack 1 [PutV 1 5; CallVR 1 2]) 0 [1; 3; 9] [] = Ok [2; 2; 2] /\
  transient (Stack 1 [CallVR 1 2; PutV 1 5]) 0 [1; 3; 9] [] = Ok [5; 5; 5].
Proof.
  assert (Ht : ~ 0 == 1) by (intro H; discriminate H).
  destruct (floor_and_cap_stack 1 2 5 0 [1; 3; 9] [] Ht)
    as (fc & cf & Hfc & _).
  destruct (floor_and_cap_stack 1 5 2 0 [1; 3; 9] [] Ht)
    as (fc' & cf' & Hfc' & Hcf' & _).
  cbv in Hfc, Hfc', Hcf'.
  injection Hfc as <-. injection Hfc' as <-. injection Hcf' as <-.
  repeat split.
Defined.

(** ** Stacks compose *)

Lemma Stack_transient_loop_app (t : Q) (S : list Q) (ps qs : list payoff) :
  forall V,
    Stack_transient_loop t S (ps ++ qs) V =
    (V' <- Stack_transient_loop t S ps V ;; Stack_transient_loop t S qs V').
Proof.
  induction ps as [|q ps IH]; intro V; cbn.
  - reflexivity.
  - destruct (transient q t V S) as [V'|e]; cbn [bind]; [apply IH|reflexivity].
Qed.

(** X3. [Stack.transient] is sequential composition: a stack of [ps]
    followed by [qs] gives what the stack of [ps] gives, handed to the stack
    of [qs]; two stacks of one maturity nested in a third are the flat
    stack; and a stack of one payoff is that payoff, away from the stack's
    maturity. This holds whether the children return or raise. *)
Theorem Stack_transient_composes
  (T t : Q) (ps qs : list payoff) (q : payoff) (V S : list Q) :
  transient (Stack T (ps ++ qs)) t V S =
    (V' <- transient (Stack T ps) t V S ;; transient (Stack T qs) t V' S) /\
  transient (Stack T [Stack T ps; Stack T qs]) t V S =
    transient (Stack T (ps ++ qs)) t V S /\
  transient (Stack T [q]) t V S =
    (_ <- py_assert (Qneb t T) ;; transient q t V S).
Proof.
  rewrite !transient_Stack.
  destruct (Qneb t T) eqn:E; cbn [py_assert bind]; [|repeat split].
  split; [|split].
  - rewrite Stack_transient_loop_app.
    destruct (Stack_transient_loop t S ps V); cbn [bind]; [|reflexivity].
    rewrite transient_Stack, E. reflexivity.
  - cbn [Stack_transient_loop]. rewrite !transient_Stack, E.
    cbn [py_assert bind]. rewrite Stack_transient_loop_app.
    destruct (Stack_transient_loop t S ps V) as [V'|e]; cbn [bind];
      [|reflexivity].
    rewrite transient_Stack, E. cbn [py_assert bind].
    destruct (Stack_transient_loop t S qs V'); reflexivity.
  - cbn [Stack_transient_loop]. destruct (transient q t V S); reflexivity.
Qed.

(** ** The maxima of a [Stack] *)

(** Node [i] of [r] is the largest of the values the payoffs of [ps] give
    through [value_of]: none exceeds it and one reaches it. *)
Lemma largest_unique (A : Type) (value_of : payoff -> A -> Prop)
  (node : A -> Q) (ps ps' : list payoff) (x x' : Q) :
  Permutation ps ps' ->
  (forall q v, In q ps -> value_of q v -> node v <= x) ->
  (exists q v, In q ps /\ value_of q v /\ x = node v) ->
  (forall q v, In q ps' -> value_of q v -> node v <= x') ->
  (exists q v, In q ps' /\ value_of q v /\ x' = node v) ->
  x == x'.
Proof.
  intros Hperm Hub (q & v & Hin & Hv & ->) Hub' (q' & v' & Hin' & Hv' & ->).
  apply Qle_antisym.
  - apply (Hub' q); [|assumption]. now apply (Permutation_in _ Hperm).
  - apply (Hub q'); [|assumption].
    now apply (Permutation_in _ (Permutation_sym Hperm)).
Qed.

Lemma Stack_terminal_nodes (T : Q) (first : payoff) (rest : list payoff)
  (S : list Q) :
  Forall constructed (first :: rest) ->
  exists r,
    terminal (Stack T (first :: rest)) S = Ok r /\ fits (length S) r /\
    forall i, (i < length S)%nat ->
      (forall q v, In q (first :: rest) -> terminal q S = Ok v ->
                   at_node v i <= at_node r i) /\
      (exists q v, In q (first :: rest) /\ terminal q S = Ok v /\
                   at_node r i = at_node v i).
Proof.
  intro Hall. inversion Hall as [|? ? Hfirst Hrest]; subst.
  destruct (terminal_fits first Hfirst S) as [V0 [HV0 HfV0]].
  assert (Hret : Forall (fun q => exists v, terminal q S = Ok v /\
                                            fits (length S) v) rest).
  { revert Hrest. apply Forall_impl. intros q Hq. now apply terminal_fits. }
  destruct (Stack_terminal_loop_max S rest Hret V0 HfV0)
    as (r & Hr & Hfr & Hnodes).
  exists r. rewrite terminal_Stack, HV0. cbn [bind].
  split; [assumption|]. split; [assumption|].
  intros i Hi. destruct (Hnodes i Hi) as (Hge & Hub & Hatt). split.
  - intros q v [<-|Hin] Hv.
    + assert (v = V0) by congruence. now subst v.
    + now apply (Hub q).
  - destruct Hatt as [Hatt|(q & v & Hin & Hv & Hatt)].
    + exists first, V0. split; [now left|]. now split.
    + exists q, v. split; [now right|]. now split.
Qed.

Lemma Stack_default_loop_max (t : Q) (S : list Q) (ps : list payoff) :
  Forall (fun q => exists a, default q t S = Ok a) ps ->
  forall V, length V = length S ->
  exists r,
    Stack_default_loop t S ps V = Ok r /\ length r = length S /\
    forall i, (i < length S)%nat ->
      nth i V 0 <= nth i r 0 /\
      (forall q a, In q ps -> default q t S = Ok a ->
                   nth i a 0 <= nth i r 0) /\
      (nth i r 0 = nth i V 0 \/
       exists q a, In q ps /\ default q t S = Ok a /\
                   nth i r 0 = nth i a 0).
Proof.
  induction 1 as [|q ps [W HW] _ IH]; intros V HV; cbn.
  - exists V. split; [reflexivity|]. split; [assumption|].
    intros i Hi. split; [apply Qle_refl|]. split; [intros ? ? []|now left].
  - rewrite HW. cbn [bind].
    pose proof (default_length _ _ _ _ HW) as HlW.
    unfold maximum_aa. rewrite ufunc_aa_same by congruence. cbn [bind].
    destruct (IH (zip_with Qmax V W)) as (r & Hr & Hlr & Hnodes).
    { rewrite length_zip_with; congruence. }
    exists r. split; [assumption|]. split; [assumption|].
    intros i Hi. destruct (Hnodes i Hi) as (Hge & Hub & Hatt).
    rewrite nth_zip_with in Hge, Hatt by congruence.
    split; [|split].
    + eapply Qle_trans; [apply Q.le_max_l|exact Hge].
    + intros q' a [<-|Hin] Ha.
      * assert (a = W) by congruence. subst a.
        eapply Qle_trans; [apply Q.le_max_r|exact Hge].
      * now apply (Hub q').
    + destruct Hatt as [Hatt|(q' & a & Hin & Ha & Hatt)].
      * destruct (Qmax_either (nth i V 0) (nth i W 0)) as [E|E];
          rewrite E in Hatt.
        -- now left.
        -- right. exists q, W. split; [now left|]. now split.
      * right. exists q', a. split; [now right|]. now split.
Qed.

Lemma Stack_default_nodes (T t : Q) (first : payoff) (rest : list payoff)
  (S : list Q) :
  ~ t == T ->
  Forall (fun q => exists a, default q t S = Ok a) (first :: rest) ->
  exists r,
    default (Stack T (first :: rest)) t S = Ok r /\ length r = length S /\
    forall i, (i < length S)%nat ->
      (forall q a, In q (first :: rest) -> default q t S = Ok a ->
                   nth i a 0 <= nth i r 0) /\
      (exists q a, In q (first :: rest) /\ default q t S = Ok a /\
                   nth i r 0 = nth i a 0).
Proof.
  intros Ht Hall. inversion Hall as [|? ? [V0 HV0] Hrest]; subst.
  pose proof (default_length _ _ _ _ HV0) as HlV0.
  destruct (Stack_default_loop_max t S rest Hrest V0 HlV0)
    as (r & Hr & Hlr & Hnodes).
  exists r. rewrite default_Stack, (Qneb_neq _ _ Ht), HV0.
  cbn [py_assert bind].
  split; [assumption|]. split; [assumption|].
  intros i Hi. destruct (Hnodes i Hi) as (Hge & Hub & Hatt). split.
  - intros q a [<-|Hin] Ha.
    + assert (a = V0) by congruence. now subst a.
    + now apply (Hub q).
  - destruct Hatt as [Hatt|(q & a & Hin & Ha & Hatt)].
    + exists first, V0. split; [now left|]. now split.
    + exists q, a. split; [now right|]. now split.
Qed.

(** X4. Away from the stack's maturity, and when each child's own
    [default(t, S)] returns, [Stack.default(t, S)] returns an array of the
    shape of [S] holding, at every node, the largest of the children's
    default values: no child's value exceeds it and one child's value
    equals it. *)
Theorem Stack_default_is_elementwise_max
  (T t : Q) (first : payoff) (rest : list payoff) (S : list Q) :
  ~ t == T ->
  Forall (fun q => exists a, default q t S = Ok a) (first :: rest) ->
  exists r,
    default (Stack T (first :: rest)) t S = Ok r /\ length r = length S /\
    forall i, (i < length S)%nat ->
      (forall q a, In q (first :: rest) -> default q t S = Ok a ->
                   nth i a 0 <= nth i r 0) /\
      (exists q a, In q (first :: rest) /\ default q t S = Ok a /\
                   nth i r 0 = nth i a 0).
Proof.
  apply Stack_default_nodes.
Qed.

Lemma Stack_default_is_elementwise_max_witness :
  default (Stack 2 [CallA 2 100; PutA 2 100; Annuity 2 [1] 5 50 1])
          1 [40; 130; 170]
  = Ok [60; 50; 70].
Proof.
  assert (Ht : ~ 1 == 2) by (intro H; discriminate H).
  destruct (Stack_default_is_elementwise_max 2 1 (CallA 2 100)
              [PutA 2 100; Annuity 2 [1] 5 50 1] [40; 130; 170] Ht)
    as (r & Hr & _).
  - repeat constructor; eexists; reflexivity.
  - rewrite Hr. cbv in Hr. injection Hr as <-. reflexivity.
Defined.

(** X5. The order of the children does not matter to the maxima of a
    [Stack]: two stacks of constructed payoffs listing the same children in
    different orders have the same [terminal(S)] at every node, and, away
    from their maturities and when the children's defaults return, the same
    [default(t, S)] at every node. *)
Theorem Stack_maxima_ignore_order
  (T T' : Q) (first first' : payoff) (rest rest' : list payoff)
  (S : list Q) :
  Permutation (first :: rest) (first' :: rest') ->
  Forall constructed (first :: rest) ->
  (exists v v',
     terminal (Stack T (first :: rest)) S = Ok v /\
     terminal (Stack T' (first' :: rest')) S = Ok v' /\
     forall i, (i < length S)%nat -> at_node v i == at_node v' i) /\
  (forall t, ~ t == T -> ~ t == T' ->
     Forall (fun q => exists a, default q t S = Ok a) (first :: rest) ->
     exists a a',
       default (Stack T (first :: rest)) t S = Ok a /\
       default (Stack T' (first' :: rest')) t S = Ok a' /\
       length a = length S /\ length a' = length S /\
       forall i, (i < length S)%nat -> nth i a 0 == nth i a' 0).
Proof.
  intros Hperm Hall. split.
  - assert (Hall' : Forall constructed (first' :: rest'))
      by (eapply Permutation_Forall; eassumption).
    destruct (Stack_terminal_nodes T first rest S Hall) as (v & Hv & _ & Hn).
    destruct (Stack_terminal_nodes T' first' rest' S Hall')
      as (v' & Hv' & _ & Hn').
    exists v, v'. split; [assumption|]. split; [assumption|].
    intros i Hi. destruct (Hn i Hi) as [Hub Hatt], (Hn' i Hi) as [Hub' Hatt'].
    apply (largest_unique _ (fun q w => terminal q S = Ok w)
             (fun w => at_node w i) _ _ _ _ Hperm); assumption.
  - intros t Ht Ht' Hret.
    assert (Hret' : Forall (fun q => exists a, default q t S = Ok a)
                           (first' :: rest'))
      by (eapply Permutation_Forall; eassumption).
    destruct (Stack_default_nodes T t first rest S Ht Hret)
      as (a & Ha & Hla & Hn).
    destruct (Stack_default_nodes T' t first' rest' S Ht' Hret')
      as (a' & Ha' & Hla' & Hn').
    exists a, a'. do 4 (split; [assumption|]).
    intros i Hi. destruct (Hn i Hi) as [Hub Hatt], (Hn' i Hi) as [Hub' Hatt'].
    apply (largest_unique _ (fun q w => default q t S = Ok w)
             (fun w => nth i w 0) _ _ _ _ Hperm); assumption.
Qed.

Lemma Stack_maxima_ignore_order_witness :
  exists v v',
    terminal (Stack 1 [CallE 1 100; PutE 1 120]) [90; 130] = Ok v /\
    terminal (Stack 1 [PutE 1 120; CallE 1 100]) [90; 130] = Ok v' /\
    v = Array [30; 30] /\ v' = Array [30; 30].
Proof.
  destruct (Stack_maxima_ignore_order 1 1 (CallE 1 100) (PutE 1 120)
              [PutE 1 120] [CallE 1 100] [90; 130])
    as ((v & v' & Hv & Hv' & _) & _).
  - apply perm_swap.
  - repeat constructor.
  - exists v, v'. split; [exact Hv|]. split; [exact Hv'|].
    cbv in Hv, Hv'. injection Hv as <-. injection Hv' as <-. now split.
Defined.

(** ** Coupons *)

Lemma Stack_coupon_loop_raises (t : Q) (ps : list payoff) :
  forall V e, Stack_coupon_loop t ps V = Raise e ->
    exists q, In q ps /\ coupon q t = Raise e.
Proof.
  induction ps as [|q ps IH]; intros V e; cbn.
  - discriminate.
  - destruct (coupon q t) as [c|e'] eqn:E; cbn [bind].
    + intro H. destruct (IH _ _ H) as (q' & Hin & Hq').
      exists q'. split; [now right|assumption].
    + intros [= <-]. exists q. split; [now left|assumption].
Qed.

Lemma Stack_coupon_loop_sums (t : Q) (ps : list payoff) (cs : list Q) :
  Forall2 (fun q c => coupon q t = Ok c) ps cs ->
  forall V, Stack_coupon_loop t ps V = Ok (fold_left Qplus cs V).
Proof.
  induction 1 as [|q c ps cs Hq _ IH]; intro V; cbn.
  - reflexivity.
  - rewrite Hq. cbn [bind]. apply IH.
Qed.

Lemma Stack_coupon_loop_stops (t : Q) (ps : list payoff) (q : payoff)
  (e : exn) :
  In q ps -> coupon q t = Raise e ->
  forall V, exists e', Stack_coupon_loop t ps V = Raise e'.
Proof.
  induction ps as [|q' ps IH]; intros Hin Hq V; [contradiction|].
  cbn. destruct (coupon q' t) as [c|e'] eqn:E; cbn [bind].
  - destruct Hin as [->|Hin]; [congruence|]. now apply IH.
  - now exists e'.
Qed.

Lemma coupon_raise_inv (p : payoff) (t : Q) (e : exn) :
  coupon p t = Raise e ->
  e = NameError /\ 0 <= t /\ barrier_free p = false.
Proof.
  revert e.
  by_payoff_induction p; intro e; try (cbn; discriminate).
  - change (coupon (Stack T stack) t) with (Stack_coupon_loop t stack 0).
    intro H. apply Stack_coupon_loop_raises in H.
    destruct H as (q & Hin & Hq).
    rewrite Forall_forall in IH. destruct (IH q Hin e Hq) as (He & Ht & Hb).
    split; [assumption|]. split; [assumption|].
    cbn [barrier_free].
    destruct (forallb barrier_free stack) eqn:E; [|reflexivity].
    rewrite forallb_forall in E. rewrite (E q Hin) in Hb. discriminate.
  - cbn [coupon barrier_free].
    destruct (Time_contains ds cs t); [apply IH|discriminate].
  - cbn [coupon barrier_free]. unfold Payoff_contains.
    destruct (Qle_bool 0 t) eqn:E; cbn; [|discriminate].
    intros [= <-]. apply Qle_bool_iff in E. now repeat split.
  - cbn. destruct (mem t times); discriminate.
Qed.


(** X6. [coupon(t)] can fail in one way only: with [NameError], at a time
    [t >= 0], on a payoff that holds an [UpAndOut] somewhere inside (whose
    [coupon] runs the membership test of the base class). On every payoff
    without an [UpAndOut], and at every negative time, it returns. *)
Theorem coupon_fails_only_behind_a_barrier (p : payoff) (t : Q) (e : exn) :
  coupon p t = Raise e ->
  e = NameError /\ 0 <= t /\ barrier_free p = false.
Proof.
  apply coupon_raise_inv.
Qed.

Lemma coupon_fails_only_behind_a_barrier_witness :
  coupon (Stack 3 [bond; knock_out 3]) 1 = Raise NameError /\
  0 <= 1 /\ barrier_free (Stack 3 [bond; knock_out 3]) = false.
Proof.
  split; [reflexivity|].
  apply (coupon_fails_only_behind_a_barrier
           (Stack 3 [bond; knock_out 3]) 1 NameError).
  reflexivity.
Defined.

(** X7. [Stack.coupon(t)] adds the children's coupons to [0], in the order
    listed; it returns when every child's coupon returns and raises as soon
    as one child's coupon raises. An empty stack pays [0]. *)
Theorem Stack_coupon_sums (T t : Q) (ps : list payoff) :
  (forall cs, Forall2 (fun q c => coupon q t = Ok c) ps cs ->
              coupon (Stack T ps) t = Ok (fold_left Qplus cs 0)) /\
  (forall q e, In q ps -> coupon q t = Raise e ->
               coupon (Stack T ps) t = Raise NameError) /\
  ((exists c, coupon (Stack T ps) t = Ok c) <->
   Forall (fun q => exists c, coupon q t = Ok c) ps).
Proof.
  change (coupon (Stack T ps) t) with (Stack_coupon_loop t ps 0).
  split; [|split].
  - intros cs H. now apply Stack_coupon_loop_sums.
  - intros q e Hin Hq.
    destruct (Stack_coupon_loop_stops t ps q e Hin Hq 0) as [e' He'].
    rewrite He'. f_equal.
    apply (coupon_raise_inv (Stack T ps) t e'). exact He'.
  - split.
    + intros [c Hc]. apply Forall_forall. intros q Hin.
      destruct (coupon q t) as [cq|e] eqn:E; [now exists cq|].
      destruct (Stack_coupon_loop_stops t ps q e Hin E 0) as [e' He'].
      congruence.
    + intro Hall.
      assert (Hcs : exists cs, Forall2 (fun q c => coupon q t = Ok c) ps cs).
      { clear - Hall. induction Hall as [|q ps [c Hc] _ [cs IH]].
        - exists []. constructor.
        - exists (c :: cs). now constructor. }
      destruct Hcs as [cs Hcs]. exists (fold_left Qplus cs 0).
      now apply Stack_coupon_loop_sums.
Qed.

(** ** What a schedule admits *)

Lemma py_max_le (a t : Q) : py_max a 0 <= t <-> a <= t /\ 0 <= t.
Proof.
  unfold py_max. destruct (Qltb a 0) eqn:E.
  - apply Qltb_lt in E. split; [intro; split; lra|intros [_ H]; exact H].
  - apply Qltb_ge in E. split; [intro; split; lra|intros [H _]; exact H].
Qed.

Lemma py_min_ge (b T t : Q) : t <= py_min b T <-> t <= b /\ t <= T.
Proof.
  unfold py_min. destruct (Qltb T b) eqn:E.
  - apply Qltb_lt in E. split; [intro; split; lra|intros [_ H]; exact H].
  - apply Qltb_ge in E. split; [intro; split; lra|intros [H _]; exact H].
Qed.

Lemma mem_app (t : Q) (xs ys : list Q) :
  mem t (xs ++ ys) = mem t xs || mem t ys.
Proof. unfold mem. apply existsb_app. Qed.

Lemma mem_compat (t x : Q) (xs : list Q) :
  t == x -> mem t xs = mem x xs.
Proof.
  intro E. unfold mem. induction xs as [|y xs IH]; cbn; [reflexivity|].
  rewrite IH. f_equal. now rewrite E.
Qed.

(** One turn of the setter admits what was admitted, and what the new entry
    admits inside [[0, T]]. *)
Lemma times_step_members (T : Q) (st : list Q * list (Q * Q))
  (time : time_entry) (t : Q) :
  Time_contains (fst (times_step T st time)) (snd (times_step T st time)) t
    = true <->
  Time_contains (fst st) (snd st) t = true \/
  ((0 <= t /\ t <= T) /\ admits t time).
Proof.
  destruct st as [ds cs]. unfold Time_contains.
  destruct time as [x|a b]; cbn [times_step admits].
  - destruct (Qle_bool 0 x && Qle_bool x T) eqn:G; cbn [fst snd].
    + apply andb_true_iff in G. destruct G as [G0 GT].
      apply Qle_bool_iff in G0, GT.
      unfold set_add. destruct (mem x ds) eqn:Ex.
      * split; [now left|]. intros [H|[_ E]]; [assumption|].
        now rewrite (mem_compat _ _ ds E), Ex.
      * rewrite mem_app. cbn [mem existsb]. rewrite orb_false_r.
        destruct (mem t ds); cbn [orb]; [split; auto|].
        destruct (Qeq_bool t x) eqn:Etx; cbn [orb].
        -- apply Qeq_bool_iff in Etx. split; [|reflexivity].
           intros _. right. rewrite Etx. now repeat split.
        -- split; [now left|]. intros [H|[_ E]]; [assumption|].
           apply Qeq_bool_iff in E. congruence.
    + split; [now left|]. intros [H|[[H0 HT] E]]; [assumption|].
      exfalso. rewrite E in H0, HT.
      apply Qle_bool_iff in H0, HT. rewrite H0, HT in G. discriminate.
  - cbn [fst snd]. unfold in_intervals. rewrite existsb_app.
    cbn [existsb fst snd]. rewrite orb_false_r.
    destruct (mem t ds); [split; auto|].
    fold (in_intervals t cs).
    destruct (in_intervals t cs); cbn [orb]; [split; auto|].
    rewrite andb_true_iff, !Qle_bool_iff, py_max_le, py_min_ge.
    split.
    + intros [[Ha H0] [Hb HT]]. right. now repeat split.
    + intros [H|[[H0 HT] [Ha Hb]]]; [discriminate|]. now repeat split.
Qed.

Lemma times_fold_members (T : Q) (times : list time_entry) (t : Q) :
  forall st,
    let st' := fold_left (times_step T) times st in
    Time_contains (fst st') (snd st') t = true <->
    Time_contains (fst st) (snd st) t = true \/
    ((0 <= t /\ t <= T) /\ exists time, In time times /\ admits t time).
Proof.
  induction times as [|time times IH]; intro st; cbn [fold_left].
  - cbn. split; [now left|]. intros [H|[_ [? [[] _]]]]. assumption.
  - cbn zeta in *. rewrite IH, times_step_members. split.
    + intros [[H|[Hr Ha]]|[Hr (e & Hin & Ha)]].
      * now left.
      * right. split; [assumption|]. exists time. split; [now left|assumption].
      * right. split; [assumption|]. exists e. split; [now right|assumption].
    + intros [H|[Hr (e & [<-|Hin] & Ha)]].
      * left. now left.
      * left. right. now split.
      * right. split; [assumption|]. now exists e.
Qed.

(** X8. After a schedule is assigned to a [Time] of maturity [T], [t in
    time] holds exactly when [t] lies in [[0, T]] and some entry of the
    assigned schedule admits it: a number equal to [t], or a pair [(a, b)]
    with [a <= t <= b]. Clipping is intersection with [[0, T]]; nothing the
    schedule held before survives. *)
Theorem Time_admits_schedule_within_maturity
  (T : Q) (child : payoff) (discrete0 : list Q) (continuous0 : list (Q * Q))
  (times : list time_entry) (t : Q) :
  exists b,
    contains (Time_times_assign (Time T child discrete0 continuous0) times) t
      = Ok b /\
    (b = true <->
     (0 <= t /\ t <= T) /\ exists time, In time times /\ admits t time).
Proof.
  cbn [Time_times_assign].
  pose proof (times_fold_members T times t ([], [])) as H.
  cbn zeta in H. fold (times_setter T times) in H.
  destruct (times_setter T times) as [ds cs]. cbn [fst snd contains] in *.
  exists (Time_contains ds cs t). split; [reflexivity|].
  rewrite H. split.
  - intros [H0|H0]; [discriminate|assumption].
  - intro H0. now right.
Qed.

(** ** Reading a schedule back *)

Lemma mem_cons_false (x y : Q) (xs : list Q) :
  mem x (y :: xs) = false <-> Qeq_bool x y = false /\ mem x xs = false.
Proof. unfold mem. cbn [existsb]. apply orb_false_iff. Qed.

Lemma mem_perm (x : Q) (xs ys : list Q) :
  Permutation xs ys -> mem x xs = mem x ys.
Proof.
  unfold mem. induction 1 as [|y xs ys _ IH|y z xs|xs ys zs _ IH1 _ IH2];
    cbn [existsb].
  - reflexivity.
  - now rewrite IH.
  - now rewrite !orb_assoc, (orb_comm (Qeq_bool x z)).
  - congruence.
Qed.

Lemma distinct_perm (xs ys : list Q) :
  Permutation xs ys -> distinct xs -> distinct ys.
Proof.
  induction 1 as [|y xs ys Hp IH|y z xs|xs ys zs _ IH1 _ IH2];
    cbn [distinct].
  - trivial.
  - intros [Hm Hd]. split; [|now apply IH]. now rewrite <- (mem_perm y _ _ Hp).
  - intros [Hz [Hy Hd]]. apply mem_cons_false in Hz. destruct Hz as [Hzy Hz].
    split; [|now split]. apply mem_cons_false. split; [|assumption].
    now rewrite Qeq_bool_comm.
  - auto.
Qed.

Lemma distinct_snoc (xs : list Q) (x : Q) :
  distinct xs -> mem x xs = false -> distinct (xs ++ [x]).
Proof.
  induction xs as [|y xs IH]; cbn [distinct app]; intros Hd Hx.
  - now split.
  - destruct Hd as [Hy Hd]. apply mem_cons_false in Hx.
    destruct Hx as [Hxy Hx]. split; [|now apply IH].
    rewrite mem_app, Hy. cbn. rewrite orb_false_r.
    now rewrite Qeq_bool_comm.
Qed.

Lemma distinct_middle (acc rest : list Q) (x : Q) :
  distinct (acc ++ x :: rest) -> mem x acc = false.
Proof.
  induction acc as [|y acc IH]; cbn [distinct app]; [reflexivity|].
  intros [Hy Hd]. apply mem_cons_false. split; [|now apply IH].
  rewrite mem_app in Hy. apply orb_false_iff in Hy. destruct Hy as [_ Hy].
  apply mem_cons_false in Hy. rewrite Qeq_bool_comm. apply Hy.
Qed.

Lemma times_step_distinct (T : Q) (st : list Q * list (Q * Q))
  (time : time_entry) :
  distinct (fst st) -> distinct (fst (times_step T st time)).
Proof.
  destruct st as [ds cs]. destruct time as [x|a b]; cbn [times_step fst];
    [|trivial].
  destruct (Qle_bool 0 x && Qle_bool x T); cbn [fst]; [|trivial].
  unfold set_add. destruct (mem x ds) eqn:E; [trivial|].
  intro Hd. now apply distinct_snoc.
Qed.

Lemma times_setter_distinct (T : Q) (times : list time_entry) :
  distinct (fst (times_setter T times)).
Proof.
  unfold times_setter.
  assert (H0 : distinct (fst (@nil Q, @nil (Q * Q)))) by exact I.
  revert H0. generalize (@nil Q, @nil (Q * Q)).
  induction times as [|time times IH]; intros st Hst; cbn [fold_left].
  - exact Hst.
  - apply IH. now apply times_step_distinct.
Qed.

Lemma instants_read_back (T : Q) (ds : list Q) :
  forall acc cs,
    distinct (acc ++ ds) ->
    (forall d, In d ds -> 0 <= d /\ d <= T) ->
    fold_left (times_step T) (map Instant ds) (acc, cs) = (acc ++ ds, cs).
Proof.
  induction ds as [|x ds IH]; intros acc cs Hd Hr; cbn [map fold_left].
  - now rewrite app_nil_r.
  - cbn [times_step].
    destruct (Hr x (or_introl eq_refl)) as [H0 HT].
    apply Qle_bool_iff in H0, HT. rewrite H0, HT. cbn [andb].
    unfold set_add. rewrite (distinct_middle _ _ _ Hd).
    rewrite IH.
    + now rewrite <- app_assoc.
    + now rewrite <- app_assoc.
    + intros d Hin. apply Hr. now right.
Qed.

Lemma intervals_read_back (T : Q) (cs : list (Q * Q)) :
  forall ds acc,
    (forall l u, In (l, u) cs -> 0 <= l /\ u <= T) ->
    fold_left (times_step T)
              (map (fun lu => Interval (fst lu) (snd lu)) cs) (ds, acc)
    = (ds, acc ++ cs).
Proof.
  induction cs as [|[l u] cs IH]; intros ds acc Hr; cbn [map fold_left].
  - now rewrite app_nil_r.
  - cbn [times_step fst snd].
    destruct (Hr l u (or_introl eq_refl)) as [H0 HT].
    unfold py_max, py_min.
    rewrite (proj2 (Qltb_ge l 0) H0), (proj2 (Qltb_ge T u) HT).
    rewrite IH.
    + now rewrite <- app_assoc.
    + intros l' u' Hin. apply Hr. now right.
Qed.

(** X9. Reading the schedule of a [Time] and assigning it back changes
    nothing: whatever order the instants come out of the set in, the getter's
    list registers exactly those instants, in that order, and the same
    intervals (they are already clipped, and no instant is a duplicate or
    out of range). *)
Theorem Time_times_round_trip
  (T : Q) (child : payoff) (discrete0 : list Q) (continuous0 : list (Q * Q))
  (times : list time_entry) (drawn : list Q) :
  let self := Time_times_assign (Time T child discrete0 continuous0) times in
  Permutation (time_discrete_of self) drawn ->
  Time_times_assign self (Time_times (Time T child drawn
                                           (time_continuous_of self)))
    = Time T child drawn (time_continuous_of self) /\
  Time_times_assign self (Time_times self) = self.
Proof.
  cbn [Time_times_assign].
  pose proof (times_setter_clipped T times) as [Hd Hc].
  pose proof (times_setter_distinct T times) as Hn.
  destruct (times_setter T times) as [ds cs].
  cbn [fst snd time_discrete_of time_continuous_of Time_times
       Time_times_assign] in *.
  intro Hperm.
  assert (Hback : forall ds', Permutation ds ds' ->
            times_setter T
              (map Instant ds'
               ++ map (fun lu => Interval (fst lu) (snd lu)) cs)
            = (ds', cs)).
  { intros ds' Hp. unfold times_setter. rewrite fold_left_app.
    rewrite instants_read_back.
    - now rewrite intervals_read_back.
    - cbn [app]. now apply (distinct_perm _ _ Hp).
    - intros d Hin. apply Hd.
      now apply (Permutation_in _ (Permutation_sym Hp)). }
  unfold Time_times. cbn [time_discrete_of time_continuous_of].
  split.
  - now rewrite (Hback drawn Hperm).
  - now rewrite (Hback ds (Permutation_refl ds)).
Qed.

Lemma Time_times_round_trip_witness :
  Time_times_assign
    (Time_init (Payoff 10) [Instant 2; Instant 1; Instant 2; Interval 5 12])
    [Instant 1; Instant 2; Interval 5 10]
  = Time 10 (Payoff 10) [1; 2] [(5, 10)].
Proof.
  apply (Time_times_round_trip 10 (Payoff 10) [] []
           [Instant 2; Instant 1; Instant 2; Interval 5 12] [1; 2]).
  apply perm_swap.
Defined.

(** ** Barriers compose *)

Lemma Qltb_min (s L1 L2 : Q) :
  Qltb s (Qmin L1 L2) = Qltb s L1 && Qltb s L2.
Proof.
  apply eq_true_iff_eq.
  rewrite andb_true_iff, !Qltb_lt. apply Q.min_glb_lt_iff.
Qed.

Lemma select_select (S : list Q) (L1 L2 : Q) :
  forall X, length X = length S ->
    select (less (select (less S L2) S) L1) (select (less S L2) X)
    = select (less S (Qmin L1 L2)) X.
Proof.
  induction S as [|s S IH]; intros [|x X] H; try discriminate H;
    [reflexivity|].
  cbn [less map select]. rewrite Qltb_min.
  fold (less S L2). fold (less S (Qmin L1 L2)).
  destruct (Qltb s L2); cbn [less map select andb].
  - fold (less (select (less S L2) S) L1).
    destruct (Qltb s L1); cbn [select]; rewrite IH; auto.
  - rewrite andb_false_r. apply IH. auto.
Qed.

Lemma count_true_select (S : list Q) (L1 L2 : Q) :
  count_true (less (select (less S L2) S) L1)
  = count_true (less S (Qmin L1 L2)).
Proof.
  rewrite <- (length_select (less (select (less S L2) S) L1)
                (select (less S L2) S)) by (now rewrite length_less).
  rewrite select_select by reflexivity.
  apply length_select. now rewrite length_less.
Qed.

Lemma scatter_scatter (S : list Q) (L1 L2 : Q) :
  forall W,
    scatter (less S L2) (zeros S)
      (scatter (less (select (less S L2) S) L1)
               (zeros (select (less S L2) S)) W)
    = scatter (less S (Qmin L1 L2)) (zeros S) W.
Proof.
  induction S as [|s S IH]; intro W; [reflexivity|].
  cbn [less map zeros select scatter]. rewrite Qltb_min.
  fold (less S L2). fold (less S (Qmin L1 L2)). fold (zeros S).
  destruct (Qltb s L2); cbn [less map zeros select scatter andb].
  - fold (less (select (less S L2) S) L1).
    fold (zeros (select (less S L2) S)).
    destruct (Qltb s L1); cbn [scatter].
    + destruct W as [|w W]; now rewrite IH.
    + now rewrite IH.
  - rewrite andb_false_r. now rewrite IH.
Qed.

Lemma scatter_fill (S : list Q) (L1 L2 v : Q) :
  scatter (less S L2) (zeros S)
    (fill (less (select (less S L2) S) L1) (zeros (select (less S L2) S)) v)
  = fill (less S (Qmin L1 L2)) (zeros S) v.
Proof.
  induction S as [|s S IH]; [reflexivity|].
  cbn [less map zeros select scatter fill]. rewrite Qltb_min.
  fold (less S L2). fold (less S (Qmin L1 L2)). fold (zeros S).
  destruct (Qltb s L2); cbn [less map zeros select scatter fill andb].
  - fold (less (select (less S L2) S) L1).
    fold (zeros (select (less S L2) S)).
    destruct (Qltb s L1); cbn [scatter fill andb]; now rewrite IH.
  - fold (less (select (less S L2) S) L1).
    fold (zeros (select (less S L2) S)).
    rewrite andb_false_r. now rewrite IH.
Qed.

(** Masking under [L1] inside masking under [L2] is masking under the
    smaller of the two, whatever the value written is. *)
Lemma setitem_setitem (S : list Q) (L1 L2 : Q) (W : value) :
  (r1 <- setitem (zeros (select (less S L2) S))
                 (less (select (less S L2) S) L1) W ;;
   setitem (zeros S) (less S L2) (Array r1))
  = setitem (zeros S) (less S (Qmin L1 L2)) W.
Proof.
  assert (Hout : forall r1,
            length r1 = length (zeros (select (less S L2) S)) ->
            setitem (zeros S) (less S L2) (Array r1)
            = Ok (scatter (less S L2) (zeros S) r1)).
  { intros r1 H. cbn [setitem].
    rewrite H, length_zeros, length_select by (now rewrite length_less).
    now rewrite Nat.eqb_refl. }
  destruct W as [v|vals]; unfold setitem at 1 3.
  - cbn [bind]. rewrite Hout by apply length_fill. now rewrite scatter_fill.
  - rewrite count_true_select.
    destruct (Nat.eqb (length vals) (count_true (less S (Qmin L1 L2)))).
    + cbn [bind]. rewrite Hout by apply length_scatter.
      now rewrite scatter_scatter.
    + destruct vals as [|v [|? ?]]; try reflexivity.
      cbn [bind]. rewrite Hout by apply length_fill. now rewrite scatter_fill.
Qed.

Lemma nested_barriers (p : payoff) (L1 L2 t : Q) (V S : list Q) :
  terminal (UpAndOut_init (UpAndOut_init p L1) L2) S
    = terminal (UpAndOut_init p (Qmin L1 L2)) S /\
  default (UpAndOut_init (UpAndOut_init p L1) L2) t S
    = default (UpAndOut_init p (Qmin L1 L2)) t S /\
  transient (UpAndOut_init (UpAndOut_init p L1) L2) t V S
    = transient (UpAndOut_init p (Qmin L1 L2)) t V S.
Proof.
  unfold UpAndOut_init. cbn [T_of]. split; [|split].
  - rewrite !terminal_UpAndOut. rewrite select_select by reflexivity.
    destruct (terminal p _) as [W|e]; cbn [bind]; [|reflexivity].
    rewrite <- (setitem_setitem S L1 L2 W).
    destruct (setitem _ (less (select _ _) L1) W); reflexivity.
  - rewrite !default_UpAndOut.
    destruct (py_assert (Qneb t (T_of p))); cbn [bind]; [|reflexivity].
    rewrite select_select by reflexivity.
    destruct (default p t _) as [W|e]; cbn [bind]; [|reflexivity].
    now rewrite <- (setitem_setitem S L1 L2 (Array W)).
  - destruct (Nat.eq_dec (length V) (length S)) as [E|E].
    + rewrite !transient_UpAndOut; try assumption.
      * rewrite !select_select by auto.
        destruct (transient p t _ _) as [W|e]; cbn [bind]; [|reflexivity].
        now rewrite <- (setitem_setitem S L1 L2 (Array W)).
      * rewrite !length_select; auto; rewrite length_less; auto.
    + cbn [transient]. unfold getitem. rewrite !length_less.
      apply Nat.eqb_neq in E. now rewrite E.
Qed.

Lemma less_swap (S : list Q) (L1 L2 : Q) :
  less S (Qmin L1 L2) = less S (Qmin L2 L1).
Proof.
  unfold less. apply map_ext. intro s. rewrite !Qltb_min. apply andb_comm.
Qed.

(** X10. Two knock-out barriers around a payoff act as one barrier at the
    lower level: [UpAndOut(UpAndOut(p, L1), L2)] and
    [UpAndOut(p, min(L1, L2))] have the same [terminal], [default] and
    [transient], values and failures alike, on every input; so the order in
    which two barriers are wrapped does not matter. *)
Theorem barriers_compose_to_the_lower (p : payoff) (L1 L2 t : Q)
  (V S : list Q) :
  (terminal (UpAndOut_init (UpAndOut_init p L1) L2) S
     = terminal (UpAndOut_init p (Qmin L1 L2)) S /\
   default (UpAndOut_init (UpAndOut_init p L1) L2) t S
     = default (UpAndOut_init p (Qmin L1 L2)) t S /\
   transient (UpAndOut_init (UpAndOut_init p L1) L2) t V S
     = transient (UpAndOut_init p (Qmin L1 L2)) t V S) /\
  (terminal (UpAndOut_init (UpAndOut_init p L1) L2) S
     = terminal (UpAndOut_init (UpAndOut_init p L2) L1) S /\
   default (UpAndOut_init (UpAndOut_init p L1) L2) t S
     = default (UpAndOut_init (UpAndOut_init p L2) L1) t S /\
   transient (UpAndOut_init (UpAndOut_init p L1) L2) t V S
     = transient (UpAndOut_init (UpAndOut_init p L2) L1) t V S).
Proof.
  destruct (nested_barriers p L1 L2 t V S) as (A1 & A2 & A3).
  destruct (nested_barriers p L2 L1 t V S) as (B1 & B2 & B3).
  split; [now repeat split|].
  rewrite A1, A2, A3, B1, B2, B3. unfold UpAndOut_init.
  cbn [terminal default transient]. rewrite (less_swap S L1 L2).
  repeat split.
Qed.

(** ** Barriers out of reach *)

Lemma Stack_terminal_loop_fits_any (S : list Q) (ps : list payoff) :
  Forall (fun q => forall v, terminal q S = Ok v -> fits (length S) v) ps ->
  forall V r, fits (length S) V ->
    Stack_terminal_loop S ps V = Ok r -> fits (length S) r.
Proof.
  induction 1 as [|q ps Hq _ IH]; intros V r HV; cbn.
  - now intros [= <-].
  - destruct (terminal q S) as [W|e] eqn:EW; cbn [bind]; [|discriminate].
    destruct (maximum_fits _ _ _ HV (Hq W eq_refl)) as [V' [HV' HfV']].
    rewrite HV'. cbn [bind]. now apply IH.
Qed.

Lemma terminal_fits_any (p : payoff) :
  forall S v, terminal p S = Ok v -> fits (length S) v.
Proof.
  by_payoff_induction p; intros S v;
    try (cbn [terminal]; intros [= <-]; cbn;
         unfold intrinsic_call, intrinsic_put, zeros, ones;
         now rewrite ?length_map).
  - destruct stack as [|first rest]; [discriminate|].
    rewrite terminal_Stack.
    inversion IH as [|? ? IHfirst IHrest]; subst.
    destruct (terminal first S) as [V0|e] eqn:E0; cbn [bind]; [|discriminate].
    apply Stack_terminal_loop_fits_any; auto.
    revert IHrest. apply Forall_impl. intros q Hq. apply Hq.
  - cbn [terminal]. destruct (Time_contains ds cs T); [apply IH|].
    intros [= <-]. exact I.
  - rewrite terminal_UpAndOut.
    destruct (terminal child _); cbn [bind]; [|discriminate].
    destruct (setitem (zeros S) (less S L) a) as [r|e] eqn:E; cbn [bind];
      [|discriminate].
    intros [= <-]. cbn. apply setitem_length in E.
    now rewrite length_zeros in E.
  - cbn [terminal]. destruct (mem T times); intros [= <-]; cbn;
      unfold ones; now rewrite ?length_map.
Qed.

Lemma less_all (S : list Q) (L : Q) (b : bool) :
  (forall s, In s S -> Qltb s L = b) -> less S L = map (fun _ => b) S.
Proof.
  intro H. unfold less. apply map_ext_in. exact H.
Qed.

Lemma select_all_true (S X : list Q) :
  length X = length S -> select (map (fun _ => true) S) X = X.
Proof.
  revert X. induction S as [|s S IH]; intros [|x X] H; try discriminate H;
    [reflexivity|].
  cbn. f_equal. apply IH. auto.
Qed.

Lemma select_all_false (S X : list Q) :
  select (map (fun _ => false) S) X = [].
Proof.
  revert X. induction S as [|s S IH]; intros [|x X]; cbn; auto.
Qed.

Lemma setitem_all_true (S : list Q) (W : value) :
  fits (length S) W ->
  setitem (zeros S) (map (fun _ => true) S) W
  = Ok (match W with
        | Scalar x => map (fun _ => x) S
        | Array a => a
        end).
Proof.
  assert (Hc : count_true (map (fun _ => true) S) = length S).
  { unfold count_true. induction S; cbn; auto. }
  destruct W as [x|a]; cbn [setitem fits].
  - intros _. f_equal. unfold zeros. clear Hc.
    induction S as [|s S IH]; cbn; [reflexivity|]. now f_equal.
  - intro H. rewrite Hc, H, Nat.eqb_refl. f_equal. clear Hc.
    revert a H. unfold zeros.
    induction S as [|s S IH]; intros [|w a] H; try discriminate H;
      [reflexivity|].
    cbn. f_equal. apply IH. auto.
Qed.

Lemma setitem_all_false (S : list Q) (W : value) :
  fits 0%nat W ->
  setitem (zeros S) (map (fun _ => false) S) W = Ok (zeros S).
Proof.
  assert (Hc : count_true (map (fun _ => false) S) = 0%nat).
  { unfold count_true. induction S; cbn; auto. }
  assert (Hf : forall v, fill (map (fun _ => false) S) (zeros S) v = zeros S).
  { intro v. unfold zeros. clear Hc.
    induction S as [|s S IH]; cbn; [reflexivity|]. now f_equal. }
  destruct W as [x|a]; cbn [setitem fits].
  - intros _. now rewrite Hf.
  - intro H. rewrite Hc, H. cbn. f_equal.
    apply length_zero_iff_nil in H. subst a. clear Hc Hf.
    unfold zeros. induction S as [|s S IH]; cbn; [reflexivity|]. now f_equal.
Qed.

(** X11. A barrier above every spot of the array is transparent: with
    [S < L] at every node, [UpAndOut(p, L)] has the [default] and the
    [transient] of [p], values and failures alike, and the [terminal] of
    [p] spread over the nodes (a child answering with a bare number gives
    that number at every node). *)
Theorem barrier_above_every_spot (p : payoff) (L t : Q) (V S : list Q) :
  (forall s, In s S -> s < L) ->
  length V = length S ->
  default (UpAndOut_init p L) t S = default p t S /\
  transient (UpAndOut_init p L) t V S = transient p t V S /\
  terminal (UpAndOut_init p L) S =
    (W <- terminal p S ;;
     Ok (Array match W with
               | Scalar x => map (fun _ => x) S
               | Array a => a
               end)).
Proof.
  intros Hin HV.
  assert (Hless : less S L = map (fun _ => true) S).
  { apply less_all. intros s Hs. apply Qltb_lt. now apply Hin. }
  unfold UpAndOut_init.
  rewrite default_UpAndOut, transient_UpAndOut, terminal_UpAndOut
    by assumption.
  rewrite Hless, !select_all_true by auto.
  split; [|split].
  - destruct (Qneb t (T_of p)) eqn:E; cbn [py_assert bind].
    + destruct (default p t S) as [W|e] eqn:EW; cbn [bind]; [|reflexivity].
      apply setitem_all_true. cbn. now apply default_length in EW.
    + symmetry. apply default_at_maturity.
      unfold Qneb in E. apply negb_false_iff in E. now apply Qeq_bool_iff.
  - destruct (transient p t V S) as [W|e] eqn:EW; cbn [bind]; [|reflexivity].
    apply setitem_all_true. cbn. now apply transient_length in EW.
  - destruct (terminal p S) as [W|e] eqn:EW; cbn [bind]; [|reflexivity].
    rewrite setitem_all_true by (now apply terminal_fits_any in EW).
    reflexivity.
Qed.

Lemma barrier_above_every_spot_witness :
  transient (UpAndOut_init (CallA 2 100) 200) 1 [1; 50] [90; 120]
    = Ok [1; 50] /\
  terminal (UpAndOut_init (Time_init (CallA 2 100) [Instant 1]) 200) [90; 120]
    = Ok (Array [0; 0]).
Proof.
  assert (Hin : forall s, In s [90; 120] -> s < 200)
    by (intros s [<-|[<-|[]]]; reflexivity).
  split.
  - destruct (barrier_above_every_spot (CallA 2 100) 200 1 [1; 50] [90; 120]
                Hin eq_refl) as (_ & -> & _).
    reflexivity.
  - destruct (barrier_above_every_spot
                (Time_init (CallA 2 100) [Instant 1]) 200 1 [1; 50] [90; 120]
                Hin eq_refl) as (_ & _ & ->).
    reflexivity.
Defined.

(** X12. With every spot at or above the barrier, and [V] of the shape of
    [S], [UpAndOut(p, L)] is zero at every node, yet [p] is still called, on
    empty arrays: whatever [p] raises there (its assertion at maturity, say)
    is raised by the knocked-out payoff too. *)
Theorem barrier_below_every_spot (p : payoff) (L t : Q) (V S : list Q) :
  (forall s, In s S -> L <= s) ->
  length V = length S ->
  terminal (UpAndOut_init p L) S =
    (_ <- terminal p [] ;; Ok (Array (zeros S))) /\
  default (UpAndOut_init p L) t S =
    (_ <- default p t [] ;; Ok (zeros S)) /\
  transient (UpAndOut_init p L) t V S =
    (_ <- transient p t [] [] ;; Ok (zeros S)).
Proof.
  intros Hin HV.
  assert (Hless : less S L = map (fun _ => false) S).
  { apply less_all. intros s Hs. apply Qltb_ge. now apply Hin. }
  unfold UpAndOut_init.
  rewrite default_UpAndOut, transient_UpAndOut, terminal_UpAndOut
    by assumption.
  rewrite Hless, !select_all_false.
  split; [|split].
  - destruct (terminal p []) as [W|e] eqn:EW; cbn [bind]; [|reflexivity].
    rewrite setitem_all_false by (now apply terminal_fits_any in EW).
    reflexivity.
  - destruct (Qneb t (T_of p)) eqn:E; cbn [py_assert bind].
    + destruct (default p t []) as [W|e] eqn:EW; cbn [bind]; [|reflexivity].
      apply setitem_all_false. cbn. now apply default_length in EW.
    + rewrite default_at_maturity; [reflexivity|].
      unfold Qneb in E. apply negb_false_iff in E. now apply Qeq_bool_iff.
  - destruct (transient p t [] []) as [W|e] eqn:EW; cbn [bind];
      [|reflexivity].
    apply setitem_all_false. cbn. now apply transient_length in EW.
Qed.

Lemma barrier_below_every_spot_witness :
  terminal (UpAndOut_init (CallE 2 100) 120) [120; 150] = Ok (Array [0; 0]) /\
  transient (UpAndOut_init (CallA 2 100) 120) 1 [7; 8] [120; 150]
    = Ok [0; 0] /\
  transient (UpAndOut_init (CallA 2 100) 120) 2 [7; 8] [120; 150]
    = Raise AssertionError.
Proof.
  assert (Hin : forall s, In s [120; 150] -> 120 <= s)
    by (intros s [<-|[<-|[]]]; intro H; discriminate H).
  destruct (barrier_below_every_spot (CallE 2 100) 120 1 [7; 8] [120; 150]
              Hin eq_refl) as (-> & _).
  destruct (barrier_below_every_spot (CallA 2 100) 120 1 [7; 8] [120; 150]
              Hin eq_refl) as (_ & _ & ->).
  destruct (barrier_below_every_spot (CallA 2 100) 120 2 [7; 8] [120; 150]
              Hin eq_refl) as (_ & _ & ->).
  repeat split.
Defined.

(** ** Annuities, in general *)

Lemma nth_ones (S : list Q) (i : nat) :
  (i < length S)%nat -> nth i (ones S) 0 = 1.
Proof.
  unfold ones. revert i. induction S as [|s S IH]; intros [|i] H;
    simpl in *; try lia; auto.
  apply IH. lia.
Qed.

(** X13. For every bond ([T], schedule, [C], [N], [R]) the intrinsic
    annuity is the plain annuity with its coupon folded in, node by node:
    [AnnuityI.terminal(S)] is [Annuity.terminal(S)] plus
    [Annuity.coupon(T)], and for [t] other than [T]
    [AnnuityI.transient(t, V, S)] is [V] plus [Annuity.coupon(t)] while
    [Annuity.transient] returns [V]; the terminal value of the plain annuity
    is [N] and both defaults are [N * R] at every node, whatever the spot
    is; [AnnuityI.coupon] is always [0]. *)
Theorem AnnuityI_is_Annuity_plus_coupon
  (T C N R t : Q) (times V S : list Q) :
  ~ t == T ->
  exists (b bI d dI rI : list Q) (cT ct : Q),
    terminal (Annuity T times C N R) S = Ok (Array b) /\
    terminal (AnnuityI T times C N R) S = Ok (Array bI) /\
    default (Annuity T times C N R) t S = Ok d /\
    default (AnnuityI T times C N R) t S = Ok dI /\
    transient (Annuity T times C N R) t V S = Ok V /\
    transient (AnnuityI T times C N R) t V S = Ok rI /\
    coupon (Annuity T times C N R) T = Ok cT /\
    coupon (Annuity T times C N R) t = Ok ct /\
    coupon (AnnuityI T times C N R) t = Ok 0 /\
    (ct = (if mem t times then C else 0)) /\
    length rI = length V /\
    (forall i, (i < length V)%nat -> nth i rI 0 == nth i V 0 + ct) /\
    forall i, (i < length S)%nat ->
      nth i b 0 == N /\ nth i bI 0 == nth i b 0 + cT /\
      nth i d 0 == N * R /\ nth i dI 0 = nth i d 0.
Proof.
  intro Ht. cbn [terminal default transient coupon].
  rewrite (Qneb_neq _ _ Ht). cbn [py_assert bind].
  destruct (mem T times) eqn:ET; destruct (mem t times) eqn:Et;
    do 7 eexists; do 9 (split; [reflexivity|]);
    (split; [reflexivity|]);
    (split; [rewrite ?length_map; reflexivity|]);
    (split; [intros i Hi; rewrite ?nth_map_Q by assumption; lra|]);
    intros i Hi; rewrite ?nth_map_map_Q, ?nth_map_Q
      by (unfold ones; rewrite ?length_map; assumption);
    rewrite ?nth_ones by assumption; repeat split; lra.
Qed.

Lemma AnnuityI_is_Annuity_plus_coupon_witness :
  transient (AnnuityI 3 [1; 2; 3] 5 100 (2 # 5)) 2 [7; 8] [90; 120]
    = Ok [12; 13] /\
  default (Annuity 3 [1; 2; 3] 5 100 (2 # 5)) 2 [90; 120]
    = Ok [200 # 5; 200 # 5].
Proof.
  assert (Ht : ~ 2 == 3) by (intro H; discriminate H).
  destruct (AnnuityI_is_Annuity_plus_coupon 3 5 100 (2 # 5) 2 [1; 2; 3]
              [7; 8] [90; 120] Ht)
    as (b & bI & d & dI & rI & cT & ct & _ & _ & Hd & _ & _ & HrI & _).
  rewrite Hd, HrI. cbv in Hd, HrI.
  injection Hd as <-. injection HrI as <-. repeat split.
Defined.

(** ** The strike scope *)

Lemma with_K_own (self : instance) : with_K (attr_K self) self = self.
Proof. now destruct self. Qed.

(** X14. [with self._strike(K): body] runs [body] on the instance with the
    strike replaced by [K], hands back what [body] returns or raises, and
    leaves the strike as it was before the block, also when blocks are
    nested. [VariableStrike.transient] is this scope around the wrapped
    [transient], with [K = strike(t)], whenever [strike] itself leaves the
    instance alone. *)
Theorem strike_scope_is_scoped (A : Type) (K K' : pyval) (body : M A)
  (strike : Q -> M pyval)
  (super_transient : Q -> list Q -> list Q -> M (list Q))
  (t : Q) (V S : list Q) (self : instance) :
  (attr_K (snd (strike_scope K body self)) = attr_K self /\
   fst (strike_scope K body self) = fst (body (with_K K self))) /\
  (attr_K (snd (strike_scope K (strike_scope K' body) self)) = attr_K self /\
   fst (strike_scope K (strike_scope K' body) self)
     = fst (body (with_K K' (with_K K self)))) /\
  ((forall s, snd (strike t s) = s) ->
   VariableStrike_transient strike super_transient t V S self
   = mbind (strike t) (fun k => strike_scope k (super_transient t V S)) self).
Proof.
  unfold strike_scope, VariableStrike_transient, mbind, get_K, try_finally,
    set_K.
  split; [|split].
  - cbn. destruct (body (with_K K self)) as [r s1]. now split.
  - cbn. destruct (body (with_K K' (with_K K self))) as [r s1]. now split.
  - intro Hpure. cbn. specialize (Hpure self).
    destruct (strike t self) as [[k|e] s1]; cbn in *; subst s1.
    + destruct (super_transient t V S (with_K k self)) as [r s2]. reflexivity.
    + now rewrite with_K_own.
Qed.

(** ** What can go wrong, and when nothing does *)

Lemma Stack_default_loop_raise_inv (t : Q) (S : list Q) (ps : list payoff)
  (e : exn) :
  Forall (fun q => default q t S = Raise e -> e = AssertionError) ps ->
  forall V, length V = length S ->
    Stack_default_loop t S ps V = Raise e -> e = AssertionError.
Proof.
  induction 1 as [|q ps Hq _ IH]; intros V HV; cbn; [discriminate|].
  destruct (default q t S) as [W|e'] eqn:EW; cbn [bind].
  - pose proof (default_length _ _ _ _ EW) as HlW.
    unfold maximum_aa. rewrite ufunc_aa_same by congruence. cbn [bind].
    apply IH. rewrite length_zip_with; congruence.
  - intros [= ->]. now apply Hq.
Qed.

Lemma default_raise_inv (p : payoff) :
  constructed p ->
  forall t S e, default p t S = Raise e -> e = AssertionError.
Proof.
  by_payoff_induction p; intros Hc t S e;
    try (cbn [default]; destruct (py_assert _) eqn:EA; cbn [bind];
         [discriminate|];
         unfold py_assert in EA; destruct (Qneb _ _); congruence).
  - apply constructed_Stack_inv in Hc.
    destruct Hc as (first & rest & -> & _ & Hfirst & Hrest).
    rewrite default_Stack. unfold py_assert.
    destruct (Qneb t T); cbn [bind]; [|congruence].
    inversion IH as [|? ? IHfirst IHrest]; subst.
    destruct (default first t S) as [V0|e'] eqn:E0; cbn [bind].
    + apply Stack_default_loop_raise_inv.
      * rewrite Forall_forall in *. intros q Hin.
        apply (IHrest q Hin (Hrest q Hin)).
      * now apply default_length in E0.
    + intros [= ->]. now apply (IHfirst Hfirst t S).
  - apply constructed_Time_inv in Hc. destruct Hc as (_ & Hc & _).
    cbn [default]. unfold py_assert.
    destruct (Qneb t T); cbn [bind]; [|congruence].
    destruct (Time_contains ds cs t); [now apply IH|discriminate].
  - apply constructed_UpAndOut_inv in Hc. destruct Hc as [_ Hc].
    rewrite default_UpAndOut. unfold py_assert.
    destruct (Qneb t T); cbn [bind]; [|congruence].
    destruct (default child t _) as [W|e'] eqn:EW; cbn [bind].
    + apply default_length in EW.
      rewrite length_select in EW by (now rewrite length_less).
      cbn [setitem]. rewrite EW, Nat.eqb_refl. discriminate.
    + intros [= ->]. exact (IH Hc t _ e EW).
Qed.

Lemma Stack_transient_loop_raise_inv (t : Q) (S : list Q) (ps : list payoff)
  (e : exn) :
  Forall (fun q => forall V, length V = length S ->
                     transient q t V S = Raise e -> e = AssertionError) ps ->
  forall V, length V = length S ->
    Stack_transient_loop t S ps V = Raise e -> e = AssertionError.
Proof.
  induction 1 as [|q ps Hq _ IH]; intros V HV; cbn; [discriminate|].
  destruct (transient q t V S) as [V'|e'] eqn:EV; cbn [bind].
  - apply IH. now apply transient_length in EV.
  - intros [= ->]. now apply (Hq V).
Qed.

Lemma transient_raise_inv (p : payoff) :
  forall t V S e, length V = length S ->
    transient p t V S = Raise e -> e = AssertionError.
Proof.
  by_payoff_induction p; intros t V S e HV;
    try (cbn [transient]; unfold py_assert;
         destruct (Qneb _ _); cbn [bind]; [|congruence];
         solve [ discriminate
               | unfold maximum_aa;
                 rewrite ufunc_aa_same by (now rewrite length_map);
                 discriminate ]).
  - rewrite transient_Stack. unfold py_assert.
    destruct (Qneb t T); cbn [bind]; [|congruence].
    apply Stack_transient_loop_raise_inv; [|assumption].
    revert IH. apply Forall_impl. intros q Hq V' HV'. now apply Hq.
  - cbn [transient]. unfold py_assert.
    destruct (Qneb t T); cbn [bind]; [|congruence].
    destruct (Time_contains ds cs t); [now apply IH|discriminate].
  - rewrite transient_UpAndOut by assumption.
    assert (HVx : length (select (less S L) V)
                  = length (select (less S L) S)).
    { rewrite !length_select; auto; rewrite length_less; congruence. }
    destruct (transient child t _ _) as [W|e'] eqn:EW; cbn [bind].
    + apply transient_length in EW; [|assumption].
      rewrite length_select in EW by (now rewrite length_less).
      cbn [setitem]. rewrite EW, Nat.eqb_refl. discriminate.
    + intros [= ->]. exact (IH t _ _ e HVx EW).
  - cbn [transient]. unfold py_assert.
    destruct (Qneb t T); cbn [bind]; [|congruence].
    destruct (mem t times); discriminate.
Qed.

(** X15. On a payoff built by the constructors, with one value per node,
    the maturity assertion is the only thing [default] and [transient] can
    raise; [terminal] raises nothing; and when the children of every stack
    inside share their maturity, [default] and [transient] return arrays of
    the shape of [S] at every time other than [T]. *)
Theorem only_the_maturity_assertion_fails (p : payoff) (t : Q)
  (V S : list Q) :
  constructed p ->
  length V = length S ->
  (forall e, default p t S = Raise e -> e = AssertionError) /\
  (forall e, transient p t V S = Raise e -> e = AssertionError) /\
  (exists v, terminal p S = Ok v /\ fits (length S) v) /\
  (same_maturity p -> ~ t == T_of p ->
   exists d r,
     default p t S = Ok d /\ transient p t V S = Ok r /\
     length d = length S /\ length r = length S).
Proof.
  intros Hc HV. split; [|split; [|split]].
  - intro e. now apply default_raise_inv.
  - intro e. now apply transient_raise_inv.
  - now apply terminal_fits.
  - intros Hm Ht.
    destruct (default_returns p Hc Hm t S Ht) as [d Hd].
    destruct (transient_returns p Hc Hm t V S Ht HV) as [r Hr].
    exists d, r. split; [assumption|]. split; [assumption|]. split.
    + now apply default_length in Hd.
    + now apply transient_length in Hr.
Qed.

Lemma only_the_maturity_assertion_fails_witness :
  exists d r,
    default (Stack 2 [knock_out 2; AnnuityI 2 [1] 5 100 0;
                      Time_init (PutA 2 100) [Instant 1]])
            1 [90; 130] = Ok d /\
    transient (Stack 2 [knock_out 2; AnnuityI 2 [1] 5 100 0;
                        Time_init (PutA 2 100) [Instant 1]])
              1 [3; 4] [90; 130] = Ok r /\
    length d = length [90; 130] /\ length r = length [90; 130].
Proof.
  pose (p := Stack 2 [knock_out 2; AnnuityI 2 [1] 5 100 0;
                      Time_init (PutA 2 100) [Instant 1]]).
  assert (Hc : constructed p).
  { cbn. repeat split. exists [Instant 1]. reflexivity. }
  assert (Hm : same_maturity p) by (cbn; repeat split; reflexivity).
  assert (Ht : ~ 1 == T_of p) by (intro H; discriminate H).
  destruct (only_the_maturity_assertion_fails p 1 [3; 4] [90; 130] Hc eq_refl)
    as (_ & _ & _ & Hret).
  exact (Hret Hm Ht).
Defined.

(** ** Stacks of mixed maturities *)

Lemma Stack_transient_loop_trap (t : Q) (S : list Q) (q : payoff)
  (ps : list payoff) :
  Forall constructed ps -> In q ps -> t == T_of q ->
  forall V, length V = length S ->
    Stack_transient_loop t S ps V = Raise AssertionError.
Proof.
  induction 1 as [|q' ps Hq' _ IH]; intros Hin Ht V HV; [contradiction|].
  cbn. destruct (transient q' t V S) as [V'|e] eqn:EV; cbn [bind].
  - destruct Hin as [->|Hin].
    + rewrite transient_at_maturity in EV; auto. discriminate.
    + apply IH; auto. now apply transient_length in EV.
  - f_equal. now apply (transient_raise_inv q' t V S).
Qed.

Lemma Stack_default_loop_trap (t : Q) (S : list Q) (q : payoff)
  (ps : list payoff) :
  Forall constructed ps -> In q ps -> t == T_of q ->
  forall V, length V = length S ->
    Stack_default_loop t S ps V = Raise AssertionError.
Proof.
  induction 1 as [|q' ps Hq' _ IH]; intros Hin Ht V HV; [contradiction|].
  cbn. destruct (default q' t S) as [W|e] eqn:EW; cbn [bind].
  - destruct Hin as [->|Hin].
    + rewrite default_at_maturity in EW; auto. discriminate.
    + pose proof (default_length _ _ _ _ EW) as HlW.
      unfold maximum_aa. rewrite ufunc_aa_same by congruence. cbn [bind].
      apply IH; auto. rewrite length_zip_with; congruence.
  - f_equal. now apply (default_raise_inv q' Hq' t S).
Qed.

(** X16. [Stack.__init__] takes the maturity of the first child and checks
    no other: if any child of the stack matures at [t], then [default] and
    [transient] of the stack raise [AssertionError] at [t] (for [V] of the
    shape of [S]), also when [t] is not the stack's own maturity. *)
Theorem Stack_fails_at_any_childs_maturity
  (first q : payoff) (rest : list payoff) (t : Q) (V S : list Q) :
  Forall constructed (first :: rest) ->
  In q (first :: rest) ->
  t == T_of q ->
  length V = length S ->
  exists stk,
    Stack_init (first :: rest) = Ok stk /\
    T_of stk = T_of first /\
    default stk t S = Raise AssertionError /\
    transient stk t V S = Raise AssertionError.
Proof.
  intros Hall Hin Ht HV.
  exists (Stack (T_of first) (first :: rest)).
  split; [reflexivity|]. split; [reflexivity|]. split.
  - rewrite default_Stack. unfold py_assert.
    destruct (Qneb t (T_of first)); cbn [bind]; [|reflexivity].
    inversion Hall as [|? ? Hfirst Hrest]; subst.
    destruct (default first t S) as [V0|e] eqn:E0; cbn [bind].
    + destruct Hin as [->|Hin].
      * rewrite default_at_maturity in E0; auto. discriminate.
      * apply (Stack_default_loop_trap t S q); auto.
        now apply default_length in E0.
    + f_equal. now apply (default_raise_inv first Hfirst t S).
  - rewrite transient_Stack. unfold py_assert.
    destruct (Qneb t (T_of first)); cbn [bind]; [|reflexivity].
    now apply (Stack_transient_loop_trap t S q).
Qed.

Lemma Stack_fails_at_any_childs_maturity_witness :
  exists stk,
    Stack_init [CallA 2 100; CallA 1 100] = Ok stk /\
    T_of stk = 2 /\
    default stk 1 [90; 130] = Raise AssertionError /\
    transient stk 1 [3; 4] [90; 130] = Raise AssertionError.
Proof.
  apply (Stack_fails_at_any_childs_maturity (CallA 2 100) (CallA 1 100)
           [CallA 1 100] 1 [3; 4] [90; 130]).
  - repeat constructor.
  - right. now left.
  - reflexivity.
  - reflexivity.
Defined.

(** ** More continuation value never gives less *)

Lemma le_nodes_refl (xs : list Q) : le_nodes xs xs.
Proof.
  unfold le_nodes. induction xs; constructor; [apply Qle_refl|assumption].
Qed.

Lemma le_nodes_length (xs ys : list Q) :
  le_nodes xs ys -> length xs = length ys.
Proof. apply Forall2_length. Qed.

Lemma le_nodes_map (f : Q -> Q) (xs ys : list Q) :
  (forall x y, x <= y -> f x <= f y) ->
  le_nodes xs ys -> le_nodes (map f xs) (map f ys).
Proof.
  unfold le_nodes. intros Hf. induction 1; cbn [map]; constructor; auto.
Qed.

Lemma le_nodes_zip_max (xs ys zs : list Q) :
  le_nodes xs ys -> le_nodes (zip_with Qmax xs zs) (zip_with Qmax ys zs).
Proof.
  unfold le_nodes. intro H. revert zs.
  induction H as [|x y xs ys Hxy _ IH]; intros [|z zs];
    cbn [zip_with]; constructor.
  - now apply Q.max_le_compat_r.
  - apply IH.
Qed.

Lemma le_nodes_select (idx : list bool) (xs ys : list Q) :
  le_nodes xs ys -> le_nodes (select idx xs) (select idx ys).
Proof.
  unfold le_nodes. intro H. revert idx.
  induction H as [|x y xs ys Hxy _ IH]; intros [|b idx];
    cbn [select]; try constructor.
  destruct b; [constructor|]; auto.
Qed.

Lemma le_nodes_scatter (idx : list bool) (base xs ys : list Q) :
  le_nodes xs ys -> le_nodes (scatter idx base xs) (scatter idx base ys).
Proof.
  revert base xs ys. induction idx as [|b idx IH]; intros [|z base] xs ys H;
    cbn [scatter]; try apply le_nodes_refl.
  unfold le_nodes in *. destruct b.
  - destruct H as [|x y xs ys Hxy H].
    + constructor; [apply Qle_refl|apply IH; constructor].
    + constructor; [assumption|now apply IH].
  - constructor; [apply Qle_refl|now apply IH].
Qed.

Lemma Stack_transient_loop_monotone (t : Q) (S : list Q) (ps : list payoff) :
  Forall (fun q => forall V V' r,
            le_nodes V V' -> length V = length S ->
            transient q t V S = Ok r ->
            exists r', transient q t V' S = Ok r' /\ le_nodes r r') ps ->
  forall V V' r,
    le_nodes V V' -> length V = length S ->
    Stack_transient_loop t S ps V = Ok r ->
    exists r', Stack_transient_loop t S ps V' = Ok r' /\ le_nodes r r'.
Proof.
  induction 1 as [|q ps Hq _ IH]; intros V V' r Hle HV; cbn.
  - intros [= <-]. now exists V'.
  - destruct (transient q t V S) as [V1|e] eqn:E1; cbn [bind]; [|discriminate].
    destruct (Hq V V' V1 Hle HV E1) as (V1' & E1' & Hle1).
    rewrite E1'. cbn [bind]. apply IH; [assumption|].
    now apply transient_length in E1.
Qed.

(** X17. [transient] is monotone in the continuation value, for every
    payoff: if [V <= V'] at every node and [transient(t, V, S)] returns,
    then [transient(t, V', S)] returns too, and is at least as large at
    every node. (Whether [transient] fails never depends on the values in
    [V].) *)
Theorem transient_is_monotone (p : payoff) (t : Q) (V V' S r : list Q) :
  le_nodes V V' ->
  length V = length S ->
  transient p t V S = Ok r ->
  exists r', transient p t V' S = Ok r' /\ le_nodes r r'.
Proof.
  revert V V' S r.
  by_payoff_induction p; intros V V' S r Hle HV;
    pose proof (le_nodes_length _ _ Hle) as Hlen;
    try (cbn [transient]; destruct (py_assert (Qneb t T)); cbn [bind];
         [|discriminate];
         solve
           [ intros [= <-]; eexists; split; [reflexivity|assumption]
           | unfold maximum_aa;
             rewrite !ufunc_aa_same by (rewrite length_map; congruence);
             intros [= <-]; eexists; split;
             [reflexivity|now apply le_nodes_zip_max]
           | intros [= <-]; eexists; split; [reflexivity|];
             apply le_nodes_map; [|assumption]; intros x y Hxy;
             first [ now apply Q.max_le_compat_r
                   | now apply Q.min_le_compat_r ] ]).
  - rewrite !transient_Stack.
    destruct (py_assert (Qneb t T)); cbn [bind]; [|discriminate].
    apply Stack_transient_loop_monotone; auto.
    revert IH. apply Forall_impl. intros q Hq V0 V0' r0. apply Hq.
  - cbn [transient]. destruct (py_assert (Qneb t T)); cbn [bind];
      [|discriminate].
    destruct (Time_contains ds cs t).
    + now apply IH.
    + intros [= <-]. now exists V'.
  - rewrite !transient_UpAndOut by congruence.
    assert (HVx : length (select (less S L) V)
                  = length (select (less S L) S)).
    { rewrite !length_select; auto; rewrite length_less; congruence. }
    destruct (transient child t (select (less S L) V) _) as [W|e] eqn:EW;
      cbn [bind]; [|discriminate].
    destruct (IH _ (select (less S L) V') _ _
                 (le_nodes_select (less S L) _ _ Hle) HVx EW)
      as (W' & EW' & HleW).
    rewrite EW'. cbn [bind].
    pose proof (le_nodes_length _ _ HleW) as HlW.
    apply transient_length in EW; [|assumption].
    rewrite length_select in EW by (now rewrite length_less).
    cbn [setitem]. rewrite <- HlW, EW, Nat.eqb_refl.
    intros [= <-]. eexists. split; [reflexivity|].
    now apply le_nodes_scatter.
  - cbn [transient]. destruct (py_assert (Qneb t T)); cbn [bind];
      [|discriminate].
    destruct (mem t times); intros [= <-]; eexists;
      (split; [reflexivity|]); [|assumption].
    apply le_nodes_map; [|assumption].
    intros x y Hxy. now apply Qplus_le_compat; [|apply Qle_refl].
Qed.

Lemma transient_is_monotone_witness :
  exists r',
    transient (Stack 2 [knock_out 2; CallA 2 100; CallVR 2 25]) 1
              [8; 6] [90; 130] = Ok r' /\
    le_nodes [3; 25] r'.
Proof.
  apply (transient_is_monotone (Stack 2 [knock_out 2; CallA 2 100; CallVR 2 25])
           1 [3; 4] [8; 6] [90; 130] [3; 25]).
  - repeat constructor; intro H; discriminate H.
  - reflexivity.
  - reflexivity.
Defined.

(** ** Time windows intersect *)

Lemma Time_init_unfold (p : payoff) (times : list time_entry) :
  Time_init p times =
  Time (T_of p) p (fst (times_setter (T_of p) times))
       (snd (times_setter (T_of p) times)).
Proof.
  unfold Time_init, Time_times_assign.
  now destruct (times_setter (T_of p) times).
Qed.

Lemma nested_windows (p : payoff) (A B : list time_entry) (t : Q)
  (V S : list Q) :
  let T := T_of p in
  let nested := Time_init (Time_init p A) B in
  contains nested t = Ok (in_window T B t) /\
  terminal nested S =
    (if in_window T B T && in_window T A T then terminal p S
     else Ok (Scalar 0)) /\
  default nested t S =
    (_ <- py_assert (Qneb t T) ;;
     if in_window T B t && in_window T A t then default p t S
     else Ok (zeros S)) /\
  transient nested t V S =
    (_ <- py_assert (Qneb t T) ;;
     if in_window T B t && in_window T A t then transient p t V S
     else Ok V) /\
  coupon nested t =
    (if in_window T B t && in_window T A t then coupon p t else Ok 0).
Proof.
  cbn zeta. rewrite (Time_init_unfold (Time_init p A) B).
  rewrite (Time_init_unfold p A). cbn [T_of].
  cbn [contains terminal default transient coupon].
  fold (in_window (T_of p) A (T_of p)) (in_window (T_of p) B (T_of p)).
  fold (in_window (T_of p) A t) (in_window (T_of p) B t).
  split; [reflexivity|]. split; [|split; [|split]].
  - now destruct (in_window (T_of p) B (T_of p)).
  - destruct (py_assert (Qneb t (T_of p))); cbn [bind]; [|reflexivity].
    now destruct (in_window (T_of p) B t).
  - destruct (py_assert (Qneb t (T_of p))); cbn [bind]; [|reflexivity].
    now destruct (in_window (T_of p) B t).
  - now destruct (in_window (T_of p) B t).
Qed.

(** X18. A [Time] inside a [Time] is open when both windows are: the
    nested payoff hands [terminal], [default], [transient] and [coupon] to
    [p] exactly when the time lies in both schedules (each clipped to
    [[0, T]]) and is inert otherwise (scalar zero, zeros, [V], zero); so the
    order in which two schedules are wrapped does not matter. *)
Theorem Time_windows_intersect (p : payoff) (A B : list time_entry) (t : Q)
  (V S : list Q) :
  (terminal (Time_init (Time_init p A) B) S =
     (if in_window (T_of p) B (T_of p) && in_window (T_of p) A (T_of p)
      then terminal p S else Ok (Scalar 0)) /\
   default (Time_init (Time_init p A) B) t S =
     (_ <- py_assert (Qneb t (T_of p)) ;;
      if in_window (T_of p) B t && in_window (T_of p) A t
      then default p t S else Ok (zeros S)) /\
   transient (Time_init (Time_init p A) B) t V S =
     (_ <- py_assert (Qneb t (T_of p)) ;;
      if in_window (T_of p) B t && in_window (T_of p) A t
      then transient p t V S else Ok V) /\
   coupon (Time_init (Time_init p A) B) t =
     (if in_window (T_of p) B t && in_window (T_of p) A t
      then coupon p t else Ok 0)) /\
  (contains (Time_init p A) t = Ok (in_window (T_of p) A t) /\
   contains (Time_init (Time_init p A) B) t = Ok (in_window (T_of p) B t)) /\
  (terminal (Time_init (Time_init p A) B) S
     = terminal (Time_init (Time_init p B) A) S /\
   default (Time_init (Time_init p A) B) t S
     = default (Time_init (Time_init p B) A) t S /\
   transient (Time_init (Time_init p A) B) t V S
     = transient (Time_init (Time_init p B) A) t V S /\
   coupon (Time_init (Time_init p A) B) t
     = coupon (Time_init (Time_init p B) A) t).
Proof.
  destruct (nested_windows p A B t V S) as (C1 & A1 & A2 & A3 & A4).
  destruct (nested_windows p B A t V S) as (_ & B1 & B2 & B3 & B4).
  cbn zeta in *.
  split; [now repeat split|]. split.
  - split; [|assumption]. rewrite (Time_init_unfold p A). reflexivity.
  - rewrite A1, A2, A3, A4, B1, B2, B3, B4.
    rewrite (andb_comm (in_window (T_of p) A (T_of p))).
    rewrite (andb_comm (in_window (T_of p) A t)).
    repeat split.
Qed.
